(** * The chat relay and the translation router, verified against their source

  Two parts of the repository are embedded here:

  - the Socket.io relay server (the script with [connectedUsers],
    [userRooms] and [messages]), as module [Relay]: a state record, one
    handler per socket event, and the emissions each handler produces;
  - the translation service ([translateTextOpenAI],
    [translateDocumentGemini], [translateTextClaude], [autoTranslate],
    [batchTranslate]) together with [getRuntimeConfig], as module
    [Translation]: an error-and-state monad over the outside world
    (configuration and network).

  JavaScript strings are sequences of code units; they are modelled by
  [string], one character per code unit below 256, compared character by
  character as JavaScript compares code units. *)

From Stdlib Require Import QArith.
From stdpp Require Import gmap strings pretty list fin_maps.

(** ** JavaScript built-ins used by both parts *)

Module Js.

(** [Array.prototype.sort] without a comparator on an array of strings:
    a stable sort by code-unit order. Insertion from the right keeps equal
    elements in their original order. *)
Fixpoint insert_sorted (x : string) (l : list string) : list string :=
  match l with
  | [] => [x]
  | y :: l' => if String.ltb y x then y :: insert_sorted x l' else x :: y :: l'
  end.

Definition sort (l : list string) : list string := foldr insert_sorted [] l.

(** [Array.prototype.join]. *)
Definition join (sep : string) (l : list string) : string := String.concat sep l.

(** Truthiness of a string: every string but the empty one. *)
Definition truthy (s : string) : bool := negb (String.eqb s "").

End Js.

(** ** The relay server *)

Module Relay.

(** The payload of [message:send], as the client declares it
    ([Omit<Message, 'id' | 'timestamp'>]). The server copies it whole into
    the stored message; the optional [location] and [event] sub-objects are
    carried the same way and are left out. *)
Inductive MessageClass := text | voice | file | location | event.

Record MessageData := {
  senderId : string;
  recipientId : string;
  content : string;
  originalContent : option string;
  messageType : MessageClass;
  isTranslated : bool;
  sourceLanguage : option string;
  targetLanguage : option string;
  fileUrl : option string;
  fileName : option string;
  fileType : option string
}.

(** [{ ...messageData, id, timestamp }]. *)
Record Message := {
  data : MessageData;
  id : string;
  timestamp : N
}.

(** What the server keeps on a socket object: the [userId] property set by
    [user:join] (absent before), and the rooms the socket has joined. *)
Record Socket := {
  userId : option string;
  rooms : gset string
}.

(** A JavaScript [Map] iterates in insertion order, and [connectedUsers]
    is iterated ([values()]): it is an association list with the [Map]
    update discipline. The other two maps are only looked up. *)
Fixpoint omap_get (k : string) (m : list (string * string)) : option string :=
  match m with
  | [] => None
  | (k', v) :: m' => if String.eqb k k' then Some v else omap_get k m'
  end.

Fixpoint omap_set (k v : string) (m : list (string * string)) : list (string * string) :=
  match m with
  | [] => [(k, v)]
  | (k', v') :: m' =>
      if String.eqb k k' then (k', v) :: m' else (k', v') :: omap_set k v m'
  end.

Fixpoint omap_delete (k : string) (m : list (string * string)) : list (string * string) :=
  match m with
  | [] => []
  | (k', v') :: m' =>
      if String.eqb k k' then m' else (k', v') :: omap_delete k m'
  end.

Definition omap_values (m : list (string * string)) : list string := m.*2.

Record State := {
  sockets : gmap string Socket;              (* the live connections *)
  connectedUsers : list (string * string);   (* socket.id -> userId *)
  userRooms : gmap (option string) string;   (* socket.userId -> chatId *)
  messages : gmap string (list Message)      (* chatId -> history *)
}.

Definition init : State :=
  {| sockets := ∅; connectedUsers := []; userRooms := ∅; messages := ∅ |}.

(** The three ways a handler emits. *)
Inductive Target :=
| ToSocket (sid : string)                  (* socket.emit *)
| Broadcast (sid : string)                 (* socket.broadcast.emit *)
| ToRoom (sid : string) (room : string).   (* socket.to(room).emit *)

Inductive Payload :=
| PUser (u : string)
| PUsers (us : list string)
| PHistory (ms : list Message)
| PMessage (m : Message)
| PTyping (u : string) (isTyping : bool).

Record Emission := {
  target : Target;
  ename : string;
  payload : Payload
}.

Definition members (room : string) (st : State) : gset string :=
  dom (filter (λ kv, room ∈ rooms kv.2) (sockets st)).

(** The connections an emission reaches, in the state it is made in.
    [socket.emit] writes to the socket itself. [socket.broadcast] and
    [socket.to(room)] are broadcast operators that leave out the room named
    by the emitting socket's id, whoever is in it: a socket is in the room of
    its own id from its connection until it leaves it, and any other socket
    that joins a room of that name is left out as well. *)
Definition recipients (st : State) (t : Target) : gset string :=
  match t with
  | ToSocket sid => {[sid]}
  | Broadcast sid => dom (sockets st) ∖ members sid st
  | ToRoom sid room => members room st ∖ members sid st
  end.

Inductive Event :=
| Connect (sid : string)
| UserJoin (sid : string) (uid : string)
| ChatJoin (sid : string) (chat : string)
| ChatLeave (sid : string) (chat : string)
| MessageSend (sid : string) (md : MessageData) (now : N) (rnd : string) (date : N)
| MessageTyping (sid : string) (uid rid : string) (isTyping : bool)
| ChatHistory (sid : string) (chat : string)
| UserOnline (sid : string) (uid : string)
| UserOffline (sid : string) (uid : string)
| Disconnect (sid : string).

Definition event_socket (ev : Event) : string :=
  match ev with
  | Connect sid | UserJoin sid _ | ChatJoin sid _ | ChatLeave sid _
  | MessageSend sid _ _ _ _ | MessageTyping sid _ _ _ | ChatHistory sid _
  | UserOnline sid _ | UserOffline sid _ | Disconnect sid => sid
  end.

(** [`chat_${[senderId, recipientId].sort().join('_')}`] *)
Definition chatId (sender recipient : string) : string :=
  "chat_" +:+ Js.join "_" (Js.sort [sender; recipient]).

Definition user_room (uid : string) : string := "user_" +:+ uid.

(** [`msg_${Date.now()}_${Math.random().toString(36).substr(2, 9)}`]: the
    clock reading and the random suffix come with the event. *)
Definition message_id (now : N) (rnd : string) : string :=
  "msg_" +:+ pretty now +:+ "_" +:+ rnd.

Definition stamp (md : MessageData) (now : N) (rnd : string) (date : N) : Message :=
  {| data := md; id := message_id now rnd; timestamp := date |}.

Definition history (chat : string) (st : State) : list Message :=
  default [] (messages st !! chat).

(** [io.on('connection', ...)]: a new socket is in the room named by its
    own id and has no [userId] yet. *)
Definition on_connection (sid : string) (st : State) : State * list Emission :=
  ({| sockets := <[sid := {| userId := None; rooms := {[sid]} |}]> (sockets st);
      connectedUsers := connectedUsers st;
      userRooms := userRooms st;
      messages := messages st |},
   []).

Definition on_user_join (sid : string) (s : Socket) (uid : string) (st : State)
  : State * list Emission :=
  let cu := omap_set sid uid (connectedUsers st) in
  let s' := {| userId := Some uid; rooms := {[user_room uid]} ∪ rooms s |} in
  ({| sockets := <[sid := s']> (sockets st);
      connectedUsers := cu;
      userRooms := userRooms st;
      messages := messages st |},
   [ {| target := Broadcast sid; ename := "user:online"; payload := PUser uid |};
     {| target := ToSocket sid; ename := "users:online";
        payload := PUsers (omap_values cu) |} ]).

Definition on_chat_join (sid : string) (s : Socket) (chat : string) (st : State)
  : State * list Emission :=
  let s' := {| userId := userId s; rooms := {[chat]} ∪ rooms s |} in
  ({| sockets := <[sid := s']> (sockets st);
      connectedUsers := connectedUsers st;
      userRooms := <[userId s := chat]> (userRooms st);
      messages := messages st |},
   [ {| target := ToSocket sid; ename := "chat:history";
        payload := PHistory (history chat st) |} ]).

Definition on_chat_leave (sid : string) (s : Socket) (chat : string) (st : State)
  : State * list Emission :=
  let s' := {| userId := userId s; rooms := rooms s ∖ {[chat]} |} in
  ({| sockets := <[sid := s']> (sockets st);
      connectedUsers := connectedUsers st;
      userRooms := delete (userId s) (userRooms st);
      messages := messages st |},
   []).

Definition on_message_send (sid : string) (md : MessageData)
    (now : N) (rnd : string) (date : N) (st : State) : State * list Emission :=
  let message := stamp md now rnd date in
  let chat := chatId (senderId md) (recipientId md) in
  ({| sockets := sockets st;
      connectedUsers := connectedUsers st;
      userRooms := userRooms st;
      messages := <[chat := (history chat st ++ [message])]> (messages st) |},
   [ {| target := ToRoom sid (user_room (recipientId md));
        ename := "message:receive"; payload := PMessage message |};
     {| target := ToSocket sid;
        ename := "message:receive"; payload := PMessage message |} ]).

Definition on_message_typing (sid : string) (uid rid : string) (isTyping : bool)
    (st : State) : State * list Emission :=
  (st, [ {| target := ToRoom sid (user_room rid); ename := "message:typing";
            payload := PTyping uid isTyping |} ]).

Definition on_chat_history (sid : string) (chat : string) (st : State)
  : State * list Emission :=
  (st, [ {| target := ToSocket sid; ename := "chat:history";
            payload := PHistory (history chat st) |} ]).

Definition on_user_online (sid : string) (uid : string) (st : State)
  : State * list Emission :=
  (st, [ {| target := Broadcast sid; ename := "user:online"; payload := PUser uid |} ]).

Definition on_user_offline (sid : string) (uid : string) (st : State)
  : State * list Emission :=
  (st, [ {| target := Broadcast sid; ename := "user:offline"; payload := PUser uid |} ]).

(** The socket is gone from the server when its [disconnect] handler
    runs. *)
Definition on_disconnect (sid : string) (st : State) : State * list Emission :=
  let live := delete sid (sockets st) in
  match omap_get sid (connectedUsers st) with
  | Some uid =>
      if Js.truthy uid then
        ({| sockets := live;
            connectedUsers := omap_delete sid (connectedUsers st);
            userRooms := delete (Some uid) (userRooms st);
            messages := messages st |},
         [ {| target := Broadcast sid; ename := "user:offline";
              payload := PUser uid |} ])
      else
        ({| sockets := live; connectedUsers := connectedUsers st;
            userRooms := userRooms st; messages := messages st |}, [])
  | None =>
      ({| sockets := live; connectedUsers := connectedUsers st;
          userRooms := userRooms st; messages := messages st |}, [])
  end.

(** One event of the server's loop. Handlers are attached to a socket when
    it connects and run to completion one at a time; an event names the
    socket it arrives on, and only a live socket has events. Socket ids are
    unique among live sockets. *)
Definition handle (st : State) (ev : Event) : State * list Emission :=
  match ev, sockets st !! event_socket ev with
  | Connect sid, None => on_connection sid st
  | Connect _, Some _ => (st, [])
  | _, None => (st, [])
  | UserJoin sid uid, Some s => on_user_join sid s uid st
  | ChatJoin sid chat, Some s => on_chat_join sid s chat st
  | ChatLeave sid chat, Some s => on_chat_leave sid s chat st
  | MessageSend sid md now rnd date, Some _ => on_message_send sid md now rnd date st
  | MessageTyping sid uid rid b, Some _ => on_message_typing sid uid rid b st
  | ChatHistory sid chat, Some _ => on_chat_history sid chat st
  | UserOnline sid uid, Some _ => on_user_online sid uid st
  | UserOffline sid uid, Some _ => on_user_offline sid uid st
  | Disconnect sid, Some _ => on_disconnect sid st
  end.

Definition step (st : State) (ev : Event) : State := (handle st ev).1.

Definition run (st : State) (evs : list Event) : State := foldl step st evs.

(** A trace as the server can see it from connections [live]: a socket
    connects under an id no live socket has, and every other event arrives
    on a live socket. *)
Fixpoint wf_trace (live : gset string) (evs : list Event) : bool :=
  match evs with
  | [] => true
  | Connect sid :: evs' =>
      bool_decide (sid ∉ live) && wf_trace ({[sid]} ∪ live) evs'
  | Disconnect sid :: evs' =>
      bool_decide (sid ∈ live) && wf_trace (live ∖ {[sid]}) evs'
  | ev :: evs' =>
      bool_decide (event_socket ev ∈ live) && wf_trace live evs'
  end.

(** The presence the server reports: [Array.from(connectedUsers.values())],
    the list it sends as [users:online]. *)
Definition onlineUsers (st : State) : list string := omap_values (connectedUsers st).

Definition isOnline (st : State) (uid : string) : Prop := uid ∈ onlineUsers st.

(** A live connection registered for [uid]: a live socket whose [userId]
    is [uid]. *)
Definition registered (st : State) (sid uid : string) : Prop :=
  ∃ s, sockets st !! sid = Some s ∧ userId s = Some uid.

Definition currentRoom (st : State) (uid : option string) : option string :=
  userRooms st !! uid.

(** The sends of a trace that land in room [chat], stamped, in order. *)
Fixpoint sends_to (chat : string) (evs : list Event) : list Message :=
  match evs with
  | [] => []
  | MessageSend _ md now rnd date :: evs' =>
      if decide (chatId (senderId md) (recipientId md) = chat)
      then stamp md now rnd date :: sends_to chat evs'
      else sends_to chat evs'
  | _ :: evs' => sends_to chat evs'
  end.

(** The connections that receive an emission of name [name] among [ems],
    each made in state [st]. *)
Definition receivers (st : State) (name : string) (ems : list Emission) : gset string :=
  ⋃ ((λ e, recipients st (target e)) <$> filter (λ e, ename e = name) ems).

Definition offline_events (ems : list Emission) : list Emission :=
  filter (λ e, ename e = "user:offline") ems.

(** The sends of a trace that land in room [chat]. *)
Definition is_send_to (chat : string) (ev : Event) : bool :=
  match ev with
  | MessageSend _ md _ _ _ => bool_decide (chatId (senderId md) (recipientId md) = chat)
  | _ => false
  end.

(** A join or a leave of a chat room by a connection, and the event it
    arrives as. *)
Inductive RoomOp := Join (chat : string) | Leave (chat : string).

Definition room_event (op : string * RoomOp) : Event :=
  match op with
  | (sid, Join chat) => ChatJoin sid chat
  | (sid, Leave chat) => ChatLeave sid chat
  end.

(** The clock reading and the random suffix a send is stamped with. *)
Definition draw (ev : Event) : option (N * string) :=
  match ev with
  | MessageSend _ _ now rnd _ => Some (now, rnd)
  | _ => None
  end.

(** Message [m] is what the send [ev] stores: the payload as it was sent,
    the id made of the clock reading and the random suffix, and the time of
    the send. *)
Definition stored_for (ev : Event) (m : Message) : Prop :=
  match ev with
  | MessageSend _ md now rnd date =>
      data m = md ∧ id m = "msg_" +:+ pretty now +:+ "_" +:+ rnd ∧ timestamp m = date
  | _ => False
  end.

(** What the handlers maintain between [connectedUsers] and the live
    sockets: keys are distinct, an entry with a truthy user belongs to a live
    socket registered for that user, and every registered socket has its
    entry. *)
Record inv (st : State) : Prop := {
  inv_nodup : NoDup (connectedUsers st).*1;
  inv_entry : ∀ sid u,
    omap_get sid (connectedUsers st) = Some u → u ≠ "" → registered st sid u;
  inv_registered : ∀ sid u,
    registered st sid u → omap_get sid (connectedUsers st) = Some u
}.

(** A live socket whose [userId] property is [uid], set or not. *)
Definition attached (st : State) (sid : string) (uid : option string) : Prop :=
  ∃ s, sockets st !! sid = Some s ∧ userId s = uid.

(** *** A sample conversation *)

(** A text message with nothing optional in it. *)
Definition plain (sender recipient body : string) : MessageData :=
  {| senderId := sender; recipientId := recipient; content := body;
     originalContent := None; messageType := text; isTranslated := false;
     sourceLanguage := None; targetLanguage := None;
     fileUrl := None; fileName := None; fileType := None |}.

(** Users [u1] and [u2] connect and join their room; [u1] says hello and
    [u2] answers. *)
Definition conversation : list Event :=
  [ Connect "a"; Connect "b"; UserJoin "a" "u1"; UserJoin "b" "u2";
    ChatJoin "a" "chat_u1_u2"; ChatJoin "b" "chat_u1_u2";
    MessageSend "a" (plain "u1" "u2" "hello") 1000 "k3j9x0q1z" 1000;
    MessageSend "b" (plain "u2" "u1" "hi") 1001 "p0o9i8u7y" 1002 ].

(** User [u1] has two sessions open, [a1] and [a2]; user [u2] has one. *)
Definition two_sessions : list Event :=
  [ Connect "a1"; Connect "a2"; Connect "b";
    UserJoin "a1" "u1"; UserJoin "a2" "u1"; UserJoin "b" "u2" ].

End Relay.

(** ** The translation service *)

Module Translation.

(** *** Configuration ([config.ts]) *)

Record TwilioConfig := {
  accountSid : string;
  authToken : string;
  phoneNumber : string
}.

Record SmtpConfig := {
  host : string;
  port : string;
  user : string;
  pass : string
}.

Record ApiConfig := {
  openaiApiKey : string;
  geminiApiKey : string;
  claudeApiKey : string;
  twilioConfig : TwilioConfig;
  smtpConfig : SmtpConfig
}.

(** [Partial<ApiConfig>]: each key present or absent. *)
Record PartialApiConfig := {
  p_openaiApiKey : option string;
  p_geminiApiKey : option string;
  p_claudeApiKey : option string;
  p_twilioConfig : option TwilioConfig;
  p_smtpConfig : option SmtpConfig
}.

(** [{ ...a, ...b }] on these two shapes. *)
Definition spread (a : ApiConfig) (b : PartialApiConfig) : ApiConfig :=
  {| openaiApiKey := default (openaiApiKey a) (p_openaiApiKey b);
     geminiApiKey := default (geminiApiKey a) (p_geminiApiKey b);
     claudeApiKey := default (claudeApiKey a) (p_claudeApiKey b);
     twilioConfig := default (twilioConfig a) (p_twilioConfig b);
     smtpConfig := default (smtpConfig a) (p_smtpConfig b) |}.

(** [SupportedLanguage] is a type of string literals, erased when the code
    runs: a language is the string of its code. *)
Abbreviation SupportedLanguage := string (only parsing).

(** *** The outside world *)

(** A value a [catch] clause can receive: an [Error] object with its
    message, or anything else. *)
Inductive JsThrown :=
| JsError (message : string)
| JsOther.

(** The object handed to [JSON.stringify] for the request body, one shape
    per provider. *)
Inductive RequestBody :=
| OpenAIBody (model system prompt : string) (max_tokens : N) (temperature : Q)
| GeminiBody (prompt : string) (temperature : Q) (topK : N) (topP : Q)
    (maxOutputTokens : N)
| ClaudeBody (model : string) (max_tokens : N) (prompt : string) (temperature : Q).

Record Request := {
  url : string;
  method : string;
  headers : list (string * string);
  body : RequestBody
}.

(** What [await response.json()] followed by the provider's access path
    ([data.choices[0]?.message?.content], [data.candidates[0]?.content?.parts[0]?.text],
    [data.content[0]?.text]) comes to: the body does not parse, the path
    throws (a [TypeError] on a missing array), the path ends in nothing
    (or in a falsy value that is not a string), or it ends in a string. *)
Inductive ResponseBody :=
| BodyRejects (e : JsThrown)
| PathThrows (e : JsThrown)
| PathNullish
| PathText (s : string).

Record Response := {
  ok : bool;
  status : N;
  statusText : string;
  json : ResponseBody
}.

Inductive FetchOutcome :=
| FetchRejects (e : JsThrown)
| FetchResolves (r : Response).

(** The world a call runs in: the two configuration objects of [config.ts],
    the network (what the n-th [fetch] of the run answers to a request),
    and the requests made so far. *)
Record World := {
  config : ApiConfig;
  runtimeConfig : PartialApiConfig;
  network : nat → Request → FetchOutcome;
  sent : list Request
}.

(** *** Exceptions and effects *)

Definition M (E A : Type) : Type := World → (E + A) * World.

Definition ret {E A} (a : A) : M E A := λ w, (inr a, w).

Definition throw {E A} (e : E) : M E A := λ w, (inl e, w).

Definition bind {E A B} (m : M E A) (k : A → M E B) : M E B :=
  λ w, match m w with
       | (inr a, w') => k a w'
       | (inl e, w') => (inl e, w')
       end.

(** [try { m } catch (e) { h e }] *)
Definition try_catch {E E' A} (m : M E A) (h : E → M E' A) : M E' A :=
  λ w, match m w with
       | (inr a, w') => (inr a, w')
       | (inl e, w') => h e w'
       end.

#[export] Instance M_ret E : MRet (M E) := λ A, ret.
#[export] Instance M_bind E : MBind (M E) := λ A B k m, bind m k.

Definition getRuntimeConfig {E} : M E ApiConfig :=
  λ w, (inr (spread (config w) (runtimeConfig w)), w).

Definition fetch (req : Request) : M JsThrown Response :=
  λ w,
    let w' := {| config := config w; runtimeConfig := runtimeConfig w;
                 network := network w; sent := sent w ++ [req] |} in
    match network w (length (sent w)) req with
    | FetchRejects e => (inl e, w')
    | FetchResolves r => (inr r, w')
    end.

(** [String.prototype.trim]: the white space and line terminators among
    the code units below 256. *)
Definition is_white (c : Ascii.ascii) : bool :=
  match Ascii.nat_of_ascii c with
  | 9 | 10 | 11 | 12 | 13 | 32 | 160 => true
  | _ => false
  end.

Fixpoint trim_start (s : string) : string :=
  match s with
  | String c s' => if is_white c then trim_start s' else s
  | EmptyString => EmptyString
  end.

Definition trim (s : string) : string :=
  String.rev (trim_start (String.rev (trim_start s))).

Definition quote : string := String (Ascii.ascii_of_nat 34) EmptyString.
Definition newline : string := String (Ascii.ascii_of_nat 10) EmptyString.

(** *** Results and errors *)

Record TranslationResult := {
  translatedText : string;
  sourceLanguage : option string;
  targetLanguage : string;
  confidence : option Q
}.

Record TranslationError := {
  error : string;
  code : string;
  details : option string
}.

(** [error instanceof Error ? error.message : 'Unknown error'] *)
Definition error_details (e : JsThrown) : string :=
  match e with
  | JsError message => message
  | JsOther => "Unknown error"
  end.

(** [sourceLang ? a : b] on an optional string. *)
Definition if_given {A} (o : option string) (a : string → A) (b : A) : A :=
  match o with
  | Some s => if Js.truthy s then a s else b
  | None => b
  end.

(** The steps every provider call shares after its [fetch]: reject a
    response that is not ok, read the text at the access path, reject an
    empty one. [post] is what the provider does to the text it finds
    ([trim] for OpenAI). *)
Definition read_translation (provider : string) (post : string → string)
    (response : Response) : M JsThrown string :=
  if negb (ok response) then
    throw (JsError (provider +:+ " API error: " +:+ pretty (status response)
                      +:+ " " +:+ statusText response))
  else
    match json response with
    | BodyRejects e => throw e
    | PathThrows e => throw e
    | PathNullish => throw (JsError ("No translation received from " +:+ provider))
    | PathText s =>
        if Js.truthy (post s) then ret (post s)
        else throw (JsError ("No translation received from " +:+ provider))
    end.

Definition translateTextOpenAI (text : string) (targetLang : SupportedLanguage)
    (sourceLang : option SupportedLanguage) : M TranslationError TranslationResult :=
  try_catch
    (config ← getRuntimeConfig;
     (if negb (Js.truthy (openaiApiKey config))
      then throw (JsError "OpenAI API key not configured") else ret tt);;
     let prompt :=
       if_given sourceLang
         (λ src, "Translate the following text from " +:+ src +:+ " to "
                   +:+ targetLang +:+ ": " +:+ quote +:+ text +:+ quote)
         ("Translate the following text to " +:+ targetLang +:+ ": "
            +:+ quote +:+ text +:+ quote) in
     response ← fetch
       {| url := "https://api.openai.com/v1/chat/completions";
          method := "POST";
          headers := [("Authorization", "Bearer " +:+ openaiApiKey config);
                      ("Content-Type", "application/json")];
          body := OpenAIBody "gpt-4o"
                    "You are a professional translator. Provide only the translated text without any additional commentary or explanation."
                    prompt 1000 0.3 |};
     translatedText ← read_translation "OpenAI" trim response;
     ret {| translatedText := translatedText;
            sourceLanguage := sourceLang;
            targetLanguage := targetLang;
            confidence := Some 0.95%Q |})
    (λ error,
       throw {| error := "Translation failed";
                code := "OPENAI_ERROR";
                details := Some (error_details error) |}).

Definition translateDocumentGemini (documentContent : string)
    (targetLang : SupportedLanguage) (sourceLang : option SupportedLanguage)
  : M TranslationError TranslationResult :=
  try_catch
    (config ← getRuntimeConfig;
     (if negb (Js.truthy (geminiApiKey config))
      then throw (JsError "Gemini API key not configured") else ret tt);;
     let prompt :=
       if_given sourceLang
         (λ src, "Translate this document from " +:+ src +:+ " to " +:+ targetLang
                   +:+ ". Maintain the document structure and formatting:"
                   +:+ newline +:+ newline +:+ documentContent)
         ("Translate this document to " +:+ targetLang
            +:+ ". Maintain the document structure and formatting:"
            +:+ newline +:+ newline +:+ documentContent) in
     response ← fetch
       {| url := "https://generativelanguage.googleapis.com/v1beta/models/gemini-pro:generateContent?key="
                   +:+ geminiApiKey config;
          method := "POST";
          headers := [("Content-Type", "application/json")];
          body := GeminiBody prompt 0.2 40 0.95 8192 |};
     translatedText ← read_translation "Gemini" id response;
     ret {| translatedText := translatedText;
            sourceLanguage := sourceLang;
            targetLanguage := targetLang;
            confidence := Some 0.92%Q |})
    (λ error,
       throw {| error := "Document translation failed";
                code := "GEMINI_ERROR";
                details := Some (error_details error) |}).

Inductive ClaudeContext := formal_context | business | legal.

Definition context_name (c : ClaudeContext) : string :=
  match c with
  | formal_context => "formal"
  | business => "business"
  | legal => "legal"
  end.

Definition translateTextClaude (text : string) (targetLang : SupportedLanguage)
    (sourceLang : option SupportedLanguage) (context : option ClaudeContext)
  : M TranslationError TranslationResult :=
  try_catch
    (config ← getRuntimeConfig;
     (if negb (Js.truthy (claudeApiKey config))
      then throw (JsError "Claude API key not configured") else ret tt);;
     let contextInstruction :=
       match context with
       | Some c => "This is a " +:+ context_name c
                     +:+ " translation. Use appropriate formal language and terminology."
       | None => "This is a formal translation. Maintain professional tone."
       end in
     let prompt :=
       if_given sourceLang
         (λ src, contextInstruction +:+ " Translate the following text from "
                   +:+ src +:+ " to " +:+ targetLang +:+ ": "
                   +:+ quote +:+ text +:+ quote)
         (contextInstruction +:+ " Translate the following text to "
            +:+ targetLang +:+ ": " +:+ quote +:+ text +:+ quote) in
     response ← fetch
       {| url := "https://api.anthropic.com/v1/messages";
          method := "POST";
          headers := [("Authorization", "Bearer " +:+ claudeApiKey config);
                      ("Content-Type", "application/json");
                      ("anthropic-version", "2023-06-01")];
          body := ClaudeBody "claude-3-sonnet-20240229" 1000 prompt 0.1 |};
     translatedText ← read_translation "Claude" id response;
     ret {| translatedText := translatedText;
            sourceLanguage := sourceLang;
            targetLanguage := targetLang;
            confidence := Some 0.98%Q |})
    (λ error,
       throw {| error := "Formal translation failed";
                code := "CLAUDE_ERROR";
                details := Some (error_details error) |}).

(** *** Routing *)

Inductive MessageType := casual | document | formal.

Definition is_casual (t : MessageType) : bool :=
  match t with casual => true | _ => false end.

(** The [switch] of [autoTranslate]. *)
Definition selected (messageType : MessageType) (text : string)
    (targetLang : SupportedLanguage) : M TranslationError TranslationResult :=
  match messageType with
  | document => translateDocumentGemini text targetLang None
  | formal => translateTextClaude text targetLang None (Some formal_context)
  | casual => translateTextOpenAI text targetLang None
  end.

(** [messageType] is an optional parameter whose default is ['casual']. *)
Definition autoTranslate (text : string) (targetLang : SupportedLanguage)
    (messageType : option MessageType) : M TranslationError TranslationResult :=
  let messageType := default casual messageType in
  try_catch (selected messageType text targetLang)
    (λ error,
       if negb (is_casual messageType) then
         try_catch (translateTextOpenAI text targetLang None)
           (λ fallbackError : TranslationError, throw error)
       else throw error).

Record BatchItem := {
  text : string;
  type : option MessageType
}.

(** The [for ... of] loop of [batchTranslate], [results] being the array it
    pushes to. *)
Fixpoint batch_loop (messages : list BatchItem) (targetLang : SupportedLanguage)
    (results : list TranslationResult) : M TranslationError (list TranslationResult) :=
  match messages with
  | [] => ret results
  | message :: rest =>
      result ← try_catch (autoTranslate (text message) targetLang (type message))
                 (λ _ : TranslationError,
                    ret {| translatedText := text message;
                           sourceLanguage := None;
                           targetLanguage := targetLang;
                           confidence := Some 0%Q |});
      batch_loop rest targetLang (results ++ [result])
  end.

Definition batchTranslate (messages : list BatchItem) (targetLang : SupportedLanguage)
  : M TranslationError (list TranslationResult) :=
  batch_loop messages targetLang [].

(** *** Reading a run *)

(** The three provider calls are one sequence of steps, each with its own
    key, request, access path and result: the key is looked up and must be
    truthy, one request is made, the text is read, the result is built; any
    failure is caught and thrown again as the provider's error. *)
Definition provider_call (key : ApiConfig → string) (missing : string)
    (request : ApiConfig → Request) (provider : string) (post : string → string)
    (result : string → TranslationResult) (failure : JsThrown → TranslationError)
  : M TranslationError TranslationResult :=
  try_catch
    (config ← getRuntimeConfig;
     (if negb (Js.truthy (key config)) then throw (JsError missing) else ret tt);;
     response ← fetch (request config);
     translatedText ← read_translation provider post response;
     ret (result translatedText))
    (λ error, throw (failure error)).

(** The first request made between world [w] and a later world [w']. *)
Definition first_request (w w' : World) : option Request :=
  sent w' !! length (sent w).

(** What [autoTranslate] does for each item of a batch, the world passing
    from one item to the next as in the loop. *)
Fixpoint item_outcomes (messages : list BatchItem) (targetLang : SupportedLanguage)
    (w : World) : list (TranslationError + TranslationResult) :=
  match messages with
  | [] => []
  | message :: rest =>
      let r := autoTranslate (text message) targetLang (type message) w in
      r.1 :: item_outcomes rest targetLang r.2
  end.

(** What the loop pushes for an item, given what [autoTranslate] did. *)
Definition item_result (targetLang : SupportedLanguage) (message : BatchItem)
    (outcome : TranslationError + TranslationResult) : TranslationResult :=
  match outcome with
  | inr result => result
  | inl _ => {| translatedText := text message;
                sourceLanguage := None;
                targetLanguage := targetLang;
                confidence := Some 0%Q |}
  end.

(** A result whose confidence is zero. *)
Definition zero_confidence (r : TranslationResult) : Prop :=
  ∃ c, confidence r = Some c ∧ (c == 0)%Q.

(** *** Sample worlds *)

Definition keys (openai gemini claude : string) : ApiConfig :=
  {| openaiApiKey := openai; geminiApiKey := gemini; claudeApiKey := claude;
     twilioConfig := {| accountSid := ""; authToken := ""; phoneNumber := "" |};
     smtpConfig := {| host := ""; port := "587"; user := ""; pass := "" |} |}.

Definition no_override : PartialApiConfig :=
  {| p_openaiApiKey := None; p_geminiApiKey := None; p_claudeApiKey := None;
     p_twilioConfig := None; p_smtpConfig := None |}.

Definition answers (s : string) : FetchOutcome :=
  FetchResolves {| ok := true; status := 200; statusText := "OK"; json := PathText s |}.

(** No Gemini key is configured; OpenAI answers. *)
Definition gemini_unavailable : World :=
  {| config := keys "sk-1" "" "sk-3"; runtimeConfig := no_override;
     network := λ _ _, answers " hola "; sent := [] |}.

(** No key at all is configured. *)
Definition nothing_configured : World :=
  {| config := keys "" "" ""; runtimeConfig := no_override;
     network := λ _ _, answers "hola"; sent := [] |}.

(** Every key is configured; the second and third requests of the run are
    refused by the network, the others are answered. *)
Definition second_item_fails : World :=
  {| config := keys "sk-1" "sk-2" "sk-3"; runtimeConfig := no_override;
     network := λ n _, match n with
                       | 1 | 2 => FetchRejects (JsError "fetch failed")
                       | _ => answers "hola"
                       end;
     sent := [] |}.

Definition three_items : list BatchItem :=
  [ {| text := "hello"; type := None |};
    {| text := "dear sir"; type := Some document |};
    {| text := "bye"; type := Some formal |} ].

End Translation.

(** ** The relay server: what traces leave behind *)

Module RelayTraces.

Import Relay.

(** The events whose handlers only emit: typing indicators, history
    requests and the presence pings a client may send. *)
Definition is_ephemeral (ev : Event) : bool :=
  match ev with
  | MessageTyping _ _ _ _ | ChatHistory _ _ | UserOnline _ _ | UserOffline _ _ => true
  | _ => false
  end.

Definition durable (evs : list Event) : list Event :=
  List.filter (λ ev, negb (is_ephemeral ev)) evs.

(** Whether an id contains the separator of room keys. *)
Fixpoint has_underscore (s : string) : bool :=
  match s with
  | EmptyString => false
  | String c s' => Ascii.eqb c (Ascii.ascii_of_nat 95) || has_underscore s'
  end.

(** A message as [message:send] builds it from the payload [md]. *)
Definition stamped (m : Message) : Prop :=
  ∃ now rnd, id m = message_id now rnd.

(** The entry [socket.emit('users:online', ...)] makes among [ems]. *)
Definition online_list (ems : list Emission) : option (list string) :=
  match filter (λ e, ename e = "users:online") ems with
  | e :: _ => match payload e with PUsers us => Some us | _ => None end
  | [] => None
  end.

End RelayTraces.


(** ** Configuration and language detection *)

Module Config.

Import Translation.

(** [a || b] where [a] is a variable of [process.env], set or not. *)
Definition or_else (a : option string) (b : string) : string :=
  match a with
  | Some s => if Js.truthy s then s else b
  | None => b
  end.

(** The [config] object, from the environment [env] the module is loaded
    in. *)
Definition config_of_env (env : string → option string) : ApiConfig :=
  {| openaiApiKey := or_else (env "NEXT_PUBLIC_OPENAI_API_KEY") "";
     geminiApiKey := or_else (env "NEXT_PUBLIC_GEMINI_API_KEY") "";
     claudeApiKey := or_else (env "NEXT_PUBLIC_CLAUDE_API_KEY") "";
     twilioConfig :=
       {| accountSid := or_else (env "TWILIO_ACCOUNT_SID") "";
          authToken := or_else (env "TWILIO_AUTH_TOKEN") "";
          phoneNumber := or_else (env "TWILIO_PHONE_NUMBER") "" |};
     smtpConfig :=
       {| host := or_else (env "SMTP_HOST") "";
          port := or_else (env "SMTP_PORT") "587";
          user := or_else (env "SMTP_USER") "";
          pass := or_else (env "SMTP_PASS") "" |} |}.

(** The world right after the module is loaded: [runtimeConfig] is [{}]. *)
Definition loaded (env : string → option string)
    (network : nat → Request → FetchOutcome) : World :=
  {| config := config_of_env env; runtimeConfig := no_override;
     network := network; sent := [] |}.

Record Validation := {
  isValid : bool;
  missingKeys : list string
}.

(** [if (c) missingKeys.push(name)] *)
Definition push_if (c : bool) (name : string) (missingKeys : list string) : list string :=
  if c then missingKeys ++ [name] else missingKeys.

Definition validateConfig (w : World) : Validation :=
  let missingKeys := [] in
  let missingKeys :=
    push_if (negb (Js.truthy (openaiApiKey (config w)))) "NEXT_PUBLIC_OPENAI_API_KEY"
      missingKeys in
  let missingKeys :=
    push_if (negb (Js.truthy (geminiApiKey (config w)))) "NEXT_PUBLIC_GEMINI_API_KEY"
      missingKeys in
  let missingKeys :=
    push_if (negb (Js.truthy (claudeApiKey (config w)))) "NEXT_PUBLIC_CLAUDE_API_KEY"
      missingKeys in
  {| isValid := Nat.eqb (length missingKeys) 0; missingKeys := missingKeys |}.

(** One key of [{ ...a, ...b }] where both are partial. *)
Definition override {A} (a b : option A) : option A :=
  match b with
  | Some x => Some x
  | None => a
  end.

Definition spread_partial (a b : PartialApiConfig) : PartialApiConfig :=
  {| p_openaiApiKey := override (p_openaiApiKey a) (p_openaiApiKey b);
     p_geminiApiKey := override (p_geminiApiKey a) (p_geminiApiKey b);
     p_claudeApiKey := override (p_claudeApiKey a) (p_claudeApiKey b);
     p_twilioConfig := override (p_twilioConfig a) (p_twilioConfig b);
     p_smtpConfig := override (p_smtpConfig a) (p_smtpConfig b) |}.

Definition updateRuntimeConfig {E} (newConfig : PartialApiConfig) : M E unit :=
  λ w, (inr tt,
        {| config := config w;
           runtimeConfig := spread_partial (runtimeConfig w) newConfig;
           network := network w; sent := sent w |}).

(** The configuration a caller of [getRuntimeConfig] sees in world [w]. *)
Definition effective (w : World) : ApiConfig := spread (config w) (runtimeConfig w).

(** The keys of [SUPPORTED_LANGUAGES], in the order of the source. The
    display names are not needed by what follows. *)
Definition SUPPORTED_LANGUAGES : list string :=
  [ "bg"; "hr"; "cs"; "da"; "nl"; "en"; "et"; "fi"; "fr"; "de"; "el"; "hu";
    "ga"; "it"; "lv"; "lt"; "mt"; "pl"; "pt"; "ro"; "sk"; "sl"; "es"; "sv";
    "sq"; "mk"; "me"; "sr"; "bs";
    "ar"; "he"; "zh"; "ja"; "ko"; "ru"; "tr"; "uk"; "no"; "is" ].

(** The property names every object literal inherits from
    [Object.prototype]. *)
Definition object_prototype : list string :=
  [ "constructor"; "__defineGetter__"; "__defineSetter__"; "hasOwnProperty";
    "__lookupGetter__"; "__lookupSetter__"; "isPrototypeOf";
    "propertyIsEnumerable"; "toString"; "valueOf"; "__proto__"; "toLocaleString" ].

(** [code in SUPPORTED_LANGUAGES]: the [in] operator finds own and
    inherited properties. *)
Definition isValidLanguage (code : string) : bool :=
  bool_decide (code ∈ SUPPORTED_LANGUAGES) || bool_decide (code ∈ object_prototype).

End Config.

Module LanguageDetection.

Import Translation Config.

(** [String.prototype.toLowerCase] on the code units below 256: the
    letters A to Z and the capital letters of Latin-1 move up by 32. *)
Definition to_lower_unit (c : Ascii.ascii) : Ascii.ascii :=
  let n := Ascii.nat_of_ascii c in
  if (Nat.leb 65 n && Nat.leb n 90)
     || (Nat.leb 192 n && Nat.leb n 222 && negb (Nat.eqb n 215))
  then Ascii.ascii_of_nat (n + 32) else c.

Fixpoint toLowerCase (s : string) : string :=
  match s with
  | EmptyString => EmptyString
  | String c s' => String (to_lower_unit c) (toLowerCase s')
  end.

Definition detection_request (text key : string) : Request :=
  {| url := "https://api.openai.com/v1/chat/completions";
     method := "POST";
     headers := [("Authorization", "Bearer " +:+ key);
                 ("Content-Type", "application/json")];
     body := OpenAIBody "gpt-4o"
               "You are a language detection expert. Respond with only the ISO 639-1 language code (2 letters) of the detected language. Supported codes: sq, bg, el, mk, me, sr, en, ar, he, zh, ja"
               ("Detect the language of this text: " +:+ quote +:+ text +:+ quote)
               10 0 |}.

(** [detectLanguage]. At the access path [data.choices[0]?.message?.content]
    a missing content makes [detectedLang] undefined, which is no property of
    the table, and a content that is no string throws at [trim], which is
    caught: both give [null]. *)
Definition detectLanguage {E} (text : string) : M E (option SupportedLanguage) :=
  try_catch (E := JsThrown)
    (config ← getRuntimeConfig;
     if negb (Js.truthy (openaiApiKey config)) then ret None else
     response ← fetch (detection_request text (openaiApiKey config));
     if negb (ok response) then ret None else
     match json response with
     | BodyRejects e => throw e
     | PathThrows e => throw e
     | PathNullish => ret None
     | PathText s =>
         let detectedLang := toLowerCase (trim s) in
         ret (if isValidLanguage detectedLang then Some detectedLang else None)
     end)
    (λ error, ret None).

(** The request [detectLanguage] makes in world [w], and what the network
    answers to it. *)
Definition detection_outcome (text : string) (w : World) : FetchOutcome :=
  network w (length (sent w))
    (detection_request text (openaiApiKey (spread (config w) (runtimeConfig w)))).

(** OpenAI answers [ fr ] with spaces around and in capitals. *)
Definition answers_french : World :=
  {| config := keys "sk-1" "" ""; runtimeConfig := no_override;
     network := λ _ _, answers " FR "; sent := [] |}.

(** OpenAI answers with the name of an inherited property. *)
Definition answers_constructor : World :=
  {| config := keys "sk-1" "" ""; runtimeConfig := no_override;
     network := λ _ _, answers "Constructor"; sent := [] |}.

End LanguageDetection.


(** ** The translation service: the three providers side by side *)

Module Providers.

Import Translation.

(** What differs between the three provider calls, by the message class
    that selects each. *)
Definition provider_name (mt : MessageType) : string :=
  match mt with
  | casual => "OpenAI"
  | document => "Gemini"
  | formal => "Claude"
  end.

Definition provider_key (mt : MessageType) (c : ApiConfig) : string :=
  match mt with
  | casual => openaiApiKey c
  | document => geminiApiKey c
  | formal => claudeApiKey c
  end.

Definition provider_url (mt : MessageType) (c : ApiConfig) : string :=
  match mt with
  | casual => "https://api.openai.com/v1/chat/completions"
  | document =>
      "https://generativelanguage.googleapis.com/v1beta/models/gemini-pro:generateContent?key="
        +:+ geminiApiKey c
  | formal => "https://api.anthropic.com/v1/messages"
  end.

(** Only the OpenAI call trims the text it reads. *)
Definition provider_post (mt : MessageType) : string → string :=
  match mt with
  | casual => trim
  | _ => id
  end.

Definition provider_confidence (mt : MessageType) : Q :=
  match mt with
  | casual => 0.95
  | document => 0.92
  | formal => 0.98
  end.

Definition provider_result (mt : MessageType) (targetLang : SupportedLanguage)
    (t : string) : TranslationResult :=
  {| translatedText := t; sourceLanguage := None; targetLanguage := targetLang;
     confidence := Some (provider_confidence mt) |}.

Definition provider_failure (mt : MessageType) (detail : string) : TranslationError :=
  {| error := match mt with
              | casual => "Translation failed"
              | document => "Document translation failed"
              | formal => "Formal translation failed"
              end;
     code := match mt with
             | casual => "OPENAI_ERROR"
             | document => "GEMINI_ERROR"
             | formal => "CLAUDE_ERROR"
             end;
     details := Some detail |}.

(** The world after one more request. *)
Definition after_request (w : World) (req : Request) : World :=
  {| config := config w; runtimeConfig := runtimeConfig w;
     network := network w; sent := sent w ++ [req] |}.

(** World [w'] is world [w] after at most [n] more requests: nothing but
    the request log differs. *)
Definition grows_by (n : nat) (w w' : World) : Prop :=
  config w' = config w ∧ runtimeConfig w' = runtimeConfig w ∧
  network w' = network w ∧
  ∃ extra, sent w' = sent w ++ extra ∧ length extra ≤ n.

(** Whether a string begins, or ends, with white space. *)
Definition starts_white (s : string) : bool :=
  match s with
  | String c _ => is_white c
  | EmptyString => false
  end.

Definition ends_white (s : string) : bool := starts_white (String.rev s).

(** The network refuses every request. *)
Definition network_down : World :=
  {| config := keys "sk-1" "sk-2" "sk-3"; runtimeConfig := no_override;
     network := λ _ _, FetchRejects (JsError "fetch failed"); sent := [] |}.

(** Every provider answers 429. *)
Definition rate_limited : World :=
  {| config := keys "sk-1" "sk-2" "sk-3"; runtimeConfig := no_override;
     network := λ _ _, FetchResolves {| ok := false; status := 429;
                                        statusText := "Too Many Requests";
                                        json := PathNullish |};
     sent := [] |}.

(** Every provider answers with white space only. *)
Definition answers_blank : World :=
  {| config := keys "sk-1" "sk-2" "sk-3"; runtimeConfig := no_override;
     network := λ _ _, answers "  "; sent := [] |}.

End Providers.


(** ** The client hook [useSocket] *)

Module Client.

Import Relay.

(** The state the hook keeps. A JavaScript [Set] iterates in insertion
    order and holds no element twice: the two sets are lists with the [Set]
    update discipline. *)
Record HookState := {
  isConnected : bool;
  onlineUsers : list string;
  messages : list Message;
  typingUsers : list string
}.

Definition initial : HookState :=
  {| isConnected := false; onlineUsers := []; messages := []; typingUsers := [] |}.

(** [new Set(prev).add(x)], which is also [new Set([...prev, x])]. *)
Definition set_add (x : string) (s : list string) : list string :=
  if bool_decide (x ∈ s) then s else s ++ [x].

(** [new Set(prev).delete(x)] *)
Definition set_delete (x : string) (s : list string) : list string :=
  filter (λ y, y ≠ x) s.

(** What arrives on the client's socket. The hook listens to the first
    eight; any other event, such as [users:online], has no listener. *)
Inductive Incoming :=
| InConnect
| InDisconnect (reason : string)
| InConnectError
| InMessageReceive (message : Message)
| InMessageTyping (userId : string) (isTyping : bool)
| InUserOnline (userId : string)
| InUserOffline (userId : string)
| InChatHistory (chatMessages : list Message)
| InOther (name : string).

(** What the client sends to the server. *)
Inductive Outgoing :=
| OutUserJoin (userId : string)
| OutMessageSend (messageData : MessageData)
| OutChatJoin (chatId : string)
| OutChatLeave (chatId : string)
| OutMessageTyping (userId recipientId : string) (isTyping : bool)
| OutChatHistory (chatId : string)
| OutUserOnline (userId : string)
| OutUserOffline (userId : string).

(** The listeners of the hook opened for user [userId]. *)
Definition on_incoming (userId : string) (c : HookState) (ev : Incoming)
  : HookState * list Outgoing :=
  match ev with
  | InConnect =>
      ({| isConnected := true; onlineUsers := onlineUsers c;
          messages := messages c; typingUsers := typingUsers c |},
       [OutUserJoin userId])
  | InDisconnect _ | InConnectError =>
      ({| isConnected := false; onlineUsers := onlineUsers c;
          messages := messages c; typingUsers := typingUsers c |}, [])
  | InMessageReceive message =>
      ({| isConnected := isConnected c; onlineUsers := onlineUsers c;
          messages := messages c ++ [message]; typingUsers := typingUsers c |}, [])
  | InMessageTyping u b =>
      ({| isConnected := isConnected c; onlineUsers := onlineUsers c;
          messages := messages c;
          typingUsers := if b then set_add u (typingUsers c)
                         else set_delete u (typingUsers c) |}, [])
  | InUserOnline u =>
      ({| isConnected := isConnected c; onlineUsers := set_add u (onlineUsers c);
          messages := messages c; typingUsers := typingUsers c |}, [])
  | InUserOffline u =>
      ({| isConnected := isConnected c; onlineUsers := set_delete u (onlineUsers c);
          messages := messages c; typingUsers := typingUsers c |}, [])
  | InChatHistory chatMessages =>
      ({| isConnected := isConnected c; onlineUsers := onlineUsers c;
          messages := chatMessages; typingUsers := typingUsers c |}, [])
  | InOther _ => (c, [])
  end.

Definition receive (userId : string) (c : HookState) (ev : Incoming) : HookState :=
  (on_incoming userId c ev).1.

Definition receive_all (userId : string) (c : HookState) (evs : list Incoming)
  : HookState :=
  foldl (receive userId) c evs.

(** The actions the hook returns. Each emits only [if (socket &&
    isConnected)]; the socket exists once the hook is set up. *)
Inductive Action :=
| sendMessage (messageData : MessageData)
| joinChat (chatId : string)
| leaveChat (chatId : string)
| sendTyping (recipientId : string) (isTyping : bool)
| getChatHistory (chatId : string)
| setUserOnline
| setUserOffline.

Definition act (userId : string) (c : HookState) (a : Action) : list Outgoing :=
  if isConnected c then
    match a with
    | sendMessage messageData => [OutMessageSend messageData]
    | joinChat chatId => [OutChatJoin chatId]
    | leaveChat chatId => [OutChatLeave chatId]
    | sendTyping recipientId isTyping =>
        if Js.truthy userId then [OutMessageTyping userId recipientId isTyping] else []
    | getChatHistory chatId => [OutChatHistory chatId]
    | setUserOnline => if Js.truthy userId then [OutUserOnline userId] else []
    | setUserOffline => if Js.truthy userId then [OutUserOffline userId] else []
    end
  else [].

(** The last word of a list of incoming events on whether [u] is online,
    if any event spoke of [u]. *)
Fixpoint last_presence (u : string) (evs : list Incoming) : option bool :=
  match evs with
  | [] => None
  | ev :: evs' =>
      match last_presence u evs' with
      | Some b => Some b
      | None =>
          match ev with
          | InUserOnline v => if bool_decide (v = u) then Some true else None
          | InUserOffline v => if bool_decide (v = u) then Some false else None
          | _ => None
          end
      end
  end.

Fixpoint last_typing (u : string) (evs : list Incoming) : option bool :=
  match evs with
  | [] => None
  | ev :: evs' =>
      match last_typing u evs' with
      | Some b => Some b
      | None =>
          match ev with
          | InMessageTyping v b => if bool_decide (v = u) then Some b else None
          | _ => None
          end
      end
  end.

(** The messages among a list of incoming events, in order. *)
Definition received (evs : list Incoming) : list Message :=
  omap (λ ev, match ev with InMessageReceive m => Some m | _ => None end) evs.

Definition is_history (ev : Incoming) : bool :=
  match ev with InChatHistory _ => true | _ => false end.

End Client.


(** ** Server and clients together *)

Module System.

Import Relay Client.

(** A client: the hook opened for user [hookUser], and its state. *)
Record Peer := {
  hookUser : string;
  hook : HookState
}.

(** The server and the client behind each socket id. Messages between them
    arrive at once and in order. *)
Record Sys := {
  server : State;
  peers : gmap string Peer
}.

Definition boot : Sys := {| server := init; peers := ∅ |}.

(** The listener an emission of the server triggers on a client. *)
Definition to_incoming (e : Emission) : Incoming :=
  match payload e with
  | PMessage m =>
      if String.eqb (ename e) "message:receive" then InMessageReceive m
      else InOther (ename e)
  | PTyping u b =>
      if String.eqb (ename e) "message:typing" then InMessageTyping u b
      else InOther (ename e)
  | PUser u =>
      if String.eqb (ename e) "user:online" then InUserOnline u
      else if String.eqb (ename e) "user:offline" then InUserOffline u
      else InOther (ename e)
  | PHistory ms =>
      if String.eqb (ename e) "chat:history" then InChatHistory ms
      else InOther (ename e)
  | PUsers _ => InOther (ename e)
  end.

Definition hear (e : Emission) (p : Peer) : Peer :=
  {| hookUser := hookUser p;
     hook := receive (hookUser p) (hook p) (to_incoming e) |}.

(** One emission, heard by the clients it reaches. *)
Definition deliver_one (st : State) (ps : gmap string Peer) (e : Emission)
  : gmap string Peer :=
  map_imap (λ sid p, Some (if bool_decide (sid ∈ recipients st (target e))
                           then hear e p else p)) ps.

Definition deliver (st : State) (ems : list Emission) (ps : gmap string Peer)
  : gmap string Peer :=
  foldl (deliver_one st) ps ems.

(** The server handles one event and its emissions are delivered. *)
Definition serve (sys : Sys) (ev : Event) : Sys :=
  let r := handle (server sys) ev in
  {| server := r.1; peers := deliver r.1 r.2 (peers sys) |}.

(** What the client emits, as the event it is on the server; the server's
    clock and random suffix come with it. *)
Definition to_event (sid : string) (now : N) (rnd : string) (date : N)
    (o : Outgoing) : Event :=
  match o with
  | OutUserJoin u => UserJoin sid u
  | OutMessageSend md => MessageSend sid md now rnd date
  | OutChatJoin chat => ChatJoin sid chat
  | OutChatLeave chat => ChatLeave sid chat
  | OutMessageTyping u rid b => MessageTyping sid u rid b
  | OutChatHistory chat => ChatHistory sid chat
  | OutUserOnline u => UserOnline sid u
  | OutUserOffline u => UserOffline sid u
  end.

Inductive SysEvent :=
| Open (sid uid : string)
| Do (sid : string) (a : Action) (now : N) (rnd : string) (date : N)
| Close (sid : string) (reason : string).

(** A hook is set up for a truthy [userId] only; its socket connects under
    a fresh id, the [connect] listener emits [user:join], and the server
    handles that. An action emits what [act] says. A close is handled by the
    server and heard by the client as [disconnect]. *)
Definition sys_step (sys : Sys) (ev : SysEvent) : Sys :=
  match ev with
  | Open sid uid =>
      if Js.truthy uid && bool_decide (sockets (server sys) !! sid = None) then
        let connected := on_incoming uid initial InConnect in
        let sys1 :=
          {| server := (handle (server sys) (Connect sid)).1;
             peers := <[sid := {| hookUser := uid; hook := connected.1 |}]> (peers sys) |} in
        foldl serve sys1 (to_event sid 0 "" 0 <$> connected.2)
      else sys
  | Do sid a now rnd date =>
      match peers sys !! sid with
      | Some p =>
          foldl serve sys (to_event sid now rnd date <$> act (hookUser p) (hook p) a)
      | None => sys
      end
  | Close sid reason =>
      let sys1 := serve sys (Disconnect sid) in
      {| server := server sys1;
         peers := alter (λ p, {| hookUser := hookUser p;
                                 hook := receive (hookUser p) (hook p)
                                           (InDisconnect reason) |}) sid (peers sys1) |}
  end.

Definition sys_run (sys : Sys) (evs : list SysEvent) : Sys := foldl sys_step sys evs.

(** Two users open the application one after the other. *)
Definition two_users : list SysEvent := [Open "a" "u1"; Open "b" "u2"].

End System.


(** ** Facts about the built-ins *)

Module JsFacts.

Lemma truthy_true s : Js.truthy s = true ↔ s ≠ "".
Proof.
  unfold Js.truthy. rewrite negb_true_iff. split.
  - intros H ->. by rewrite String.eqb_refl in H.
  - intros H. by apply String.eqb_neq.
Qed.

Lemma truthy_false s : Js.truthy s = false ↔ s = "".
Proof.
  unfold Js.truthy. rewrite negb_false_iff. apply String.eqb_eq.
Qed.

Lemma sort_pair a b :
  Js.sort [a; b] = if String.ltb b a then [b; a] else [a; b].
Proof. reflexivity. Qed.

Lemma ltb_asym a b : String.ltb a b = true → String.ltb b a = false.
Proof.
  unfold String.ltb. rewrite (String.compare_antisym b a).
  by destruct (String.compare a b).
Qed.

Lemma ltb_false_both a b :
  String.ltb a b = false → String.ltb b a = false → a = b.
Proof.
  unfold String.ltb. rewrite (String.compare_antisym b a).
  destruct (String.compare a b) eqn:E; try done.
  intros _ _. by apply String.compare_eq_iff.
Qed.

(** Sorting a pair forgets the order it was given in. *)
Lemma sort_pair_comm a b : Js.sort [a; b] = Js.sort [b; a].
Proof.
  rewrite !sort_pair.
  destruct (String.ltb b a) eqn:Hba, (String.ltb a b) eqn:Hab; try done.
  - apply ltb_asym in Hba. congruence.
  - by rewrite (ltb_false_both a b).
Qed.

(** String concatenation, and the first separator of a key. *)
Lemma append_nil (b : string) : "" +:+ b = b.
Proof. reflexivity. Qed.

Lemma append_cons x (a b : string) : String x a +:+ b = String x (a +:+ b).
Proof. reflexivity. Qed.

Lemma append_assoc (a b c : string) : (a +:+ b) +:+ c = a +:+ (b +:+ c).
Proof.
  induction a as [|x a IH]; [done |]. rewrite !append_cons. by f_equal.
Qed.

Lemma split_at_separator (a b c d : string) :
  RelayTraces.has_underscore a = false → RelayTraces.has_underscore c = false →
  a +:+ "_" +:+ b = c +:+ "_" +:+ d → a = c ∧ b = d.
Proof.
  revert c. induction a as [|x a IH]; intros [|y c];
    repeat first [rewrite append_nil | rewrite append_cons]; simpl.
  - intros _ _ [= ->]. done.
  - intros _ Hc [= <- _]. done.
  - intros Ha _ [= -> _]. done.
  - intros [_ Ha]%orb_false_iff [_ Hc]%orb_false_iff [= -> Hrest].
    by destruct (IH c Ha Hc Hrest) as [-> ->].
Qed.

(** A number in decimal has digits only. *)
Lemma pretty_N_go_digits (x : N) (s : string) :
  RelayTraces.has_underscore s = false →
  RelayTraces.has_underscore (pretty_N_go x s) = false.
Proof.
  revert s. induction (N.lt_wf_0 x) as [x _ IH]; intros s Hs.
  assert (x = 0 ∨ 0 < x)%N as [-> | Hx] by lia.
  - by rewrite pretty_N_go_0.
  - rewrite pretty_N_go_step by done. apply IH; [by apply N.div_lt |].
    simpl. rewrite Hs. unfold pretty_N_char. by repeat case_match.
Qed.

Lemma pretty_N_digits (x : N) : RelayTraces.has_underscore (pretty x) = false.
Proof.
  unfold pretty, pretty_N. case_decide; [done |]. by apply pretty_N_go_digits.
Qed.

End JsFacts.

(** ** The relay server: proofs *)

Module RelayProofs.

Import Relay.

(** *** The room key *)

(** C5. The room id derived from two user ids does not depend on the order
    they are given in: [chatId u1 u2 = chatId u2 u1] for all [u1], [u2]. *)
Theorem chatId_order_independent (u1 u2 : string) : chatId u1 u2 = chatId u2 u1.
Proof. unfold chatId. by rewrite (JsFacts.sort_pair_comm u1 u2). Qed.

(** The smaller id comes first in the key. *)
Lemma chatId_sorted (u1 u2 : string) :
  String.ltb u2 u1 = false → chatId u1 u2 = "chat_" +:+ u1 +:+ "_" +:+ u2.
Proof.
  intros H. unfold chatId. rewrite JsFacts.sort_pair, H. reflexivity.
Qed.

(** *** The insertion-ordered map *)

Section omap.

Implicit Types (m : list (string * string)) (k v : string).

Lemma omap_get_set_eq m k v : omap_get k (omap_set k v m) = Some v.
Proof.
  induction m as [|[k' v'] m IH]; simpl.
  - by rewrite String.eqb_refl.
  - destruct (String.eqb k k') eqn:E; simpl; rewrite E; [done | exact IH].
Qed.

Lemma omap_get_set_ne m k k' v :
  k ≠ k' → omap_get k' (omap_set k v m) = omap_get k' m.
Proof.
  intros Hne. induction m as [|[k0 v0] m IH]; simpl.
  - apply String.eqb_neq in Hne. rewrite String.eqb_sym in Hne. by rewrite Hne.
  - destruct (String.eqb k k0) eqn:E; simpl; [| by rewrite IH].
    apply String.eqb_eq in E. subst.
    apply String.eqb_neq in Hne. rewrite String.eqb_sym in Hne. by rewrite Hne.
Qed.

Lemma omap_get_None m k : k ∉ m.*1 → omap_get k m = None.
Proof.
  induction m as [|[k' v'] m IH]; simpl; [done |].
  intros Hk. destruct (String.eqb k k') eqn:E.
  - apply String.eqb_eq in E. subst. set_solver.
  - apply IH. set_solver.
Qed.

Lemma omap_get_elem m k v : omap_get k m = Some v → (k, v) ∈ m.
Proof.
  induction m as [|[k' v'] m IH]; simpl; [done |].
  destruct (String.eqb k k') eqn:E.
  - apply String.eqb_eq in E. intros [= ->]. subst. set_solver.
  - intros H. set_solver.
Qed.

Lemma omap_elem_get m k v : NoDup m.*1 → (k, v) ∈ m → omap_get k m = Some v.
Proof.
  induction m as [|[k' v'] m IH]; simpl; [set_solver |].
  rewrite NoDup_cons. intros [Hk' Hnd] Hin.
  apply elem_of_cons in Hin as [[= -> ->] | Hin].
  - by rewrite String.eqb_refl.
  - destruct (String.eqb k k') eqn:E; [| by apply IH].
    apply String.eqb_eq in E. subst. exfalso. apply Hk'.
    apply list_elem_of_fmap. by exists (k', v).
Qed.

Lemma omap_delete_keys m k k' : k' ∈ (omap_delete k m).*1 → k' ∈ m.*1.
Proof.
  induction m as [|[k0 v0] m IH]; simpl; [done |].
  destruct (String.eqb k k0); simpl; set_solver.
Qed.

Lemma omap_delete_NoDup m k : NoDup m.*1 → NoDup (omap_delete k m).*1.
Proof.
  induction m as [|[k0 v0] m IH]; simpl; [done |].
  rewrite NoDup_cons. intros [Hk0 Hnd].
  destruct (String.eqb k k0); simpl; [done |].
  apply NoDup_cons. split; [| by apply IH].
  intros Hin. by apply Hk0, (omap_delete_keys m k).
Qed.

Lemma omap_get_delete_eq m k : NoDup m.*1 → omap_get k (omap_delete k m) = None.
Proof.
  induction m as [|[k0 v0] m IH]; simpl; [done |].
  rewrite NoDup_cons. intros [Hk0 Hnd].
  destruct (String.eqb k k0) eqn:E; simpl.
  - apply String.eqb_eq in E. subst. by apply omap_get_None.
  - rewrite E. by apply IH.
Qed.

Lemma omap_get_delete_ne m k k' :
  k ≠ k' → omap_get k' (omap_delete k m) = omap_get k' m.
Proof.
  intros Hne. induction m as [|[k0 v0] m IH]; simpl; [done |].
  destruct (String.eqb k k0) eqn:E; simpl.
  - apply String.eqb_eq in E. subst.
    apply String.eqb_neq in Hne. rewrite String.eqb_sym in Hne. by rewrite Hne.
  - by rewrite IH.
Qed.

Lemma omap_set_keys m k v k' : k' ∈ (omap_set k v m).*1 → k' = k ∨ k' ∈ m.*1.
Proof.
  induction m as [|[k0 v0] m IH]; simpl; [set_solver |].
  destruct (String.eqb k k0); simpl; set_solver.
Qed.

Lemma omap_set_NoDup m k v : NoDup m.*1 → NoDup (omap_set k v m).*1.
Proof.
  induction m as [|[k0 v0] m IH]; simpl.
  - intros _. apply NoDup_singleton.
  - rewrite NoDup_cons. intros [Hk0 Hnd].
    destruct (String.eqb k k0) eqn:E; simpl.
    + by apply NoDup_cons.
    + apply NoDup_cons. split; [| by apply IH].
      intros Hin. apply omap_set_keys in Hin as [-> | Hin]; [| done].
      by rewrite String.eqb_refl in E.
Qed.

(** With distinct keys, the values are what some key is mapped to. *)
Lemma elem_of_omap_values m v :
  NoDup m.*1 → v ∈ omap_values m ↔ ∃ k, omap_get k m = Some v.
Proof.
  intros Hnd. unfold omap_values. rewrite list_elem_of_fmap. split.
  - intros [[k v'] [-> Hin]]. exists k. by apply omap_elem_get.
  - intros [k Hk]. exists (k, v). split; [done | by apply omap_get_elem].
Qed.

End omap.

(** *** The invariant between [connectedUsers] and the live sockets *)

Lemma handle_not_live st ev :
  sockets st !! event_socket ev = None → (∀ sid, ev ≠ Connect sid) →
  handle st ev = (st, []).
Proof.
  intros Hs Hc. unfold handle. destruct ev; simpl in *; rewrite Hs; try done.
  by destruct (Hc sid).
Qed.

Lemma registered_same st st' :
  sockets st' = sockets st → ∀ sid u, registered st' sid u ↔ registered st sid u.
Proof. intros E sid u. unfold registered. by rewrite E. Qed.

(** Replacing a socket by one with the same [userId] changes nobody's
    registration. *)
Lemma registered_update st st' sid s s' :
  sockets st !! sid = Some s →
  sockets st' = <[sid := s']> (sockets st) →
  userId s' = userId s →
  ∀ t u, registered st' t u ↔ registered st t u.
Proof.
  intros Hs E Hu t u. unfold registered. rewrite E.
  destruct (decide (sid = t)) as [<- | Hne].
  - rewrite lookup_insert_eq, Hs. split; intros [x [[= <-] Hx]]; eauto.
    + exists s. by rewrite <- Hu.
    + exists s'. by rewrite Hu.
  - by rewrite lookup_insert_ne.
Qed.

Lemma inv_transfer st st' :
  connectedUsers st' = connectedUsers st →
  (∀ t u, registered st' t u ↔ registered st t u) →
  inv st → inv st'.
Proof.
  intros Ec Hr [Hnd He Hg]. split; rewrite ?Ec.
  - done.
  - intros t u Ht Hu. apply Hr. by apply He.
  - intros t u Ht. apply Hg. by apply Hr.
Qed.

Lemma init_inv : inv init.
Proof.
  split; simpl.
  - apply NoDup_nil_2.
  - done.
  - intros sid u [s [Hs _]]. simpl in Hs. by rewrite lookup_empty in Hs.
Qed.

Lemma on_connection_inv st sid :
  sockets st !! sid = None → inv st → inv (on_connection sid st).1.
Proof.
  intros Hs [Hnd He Hg]. split; simpl.
  - done.
  - intros t u Ht Hu. destruct (He t u Ht Hu) as [s [Hts Hsu]].
    exists s. split; [| done]. simpl.
    rewrite lookup_insert_ne; [done | congruence].
  - intros t u [s [Hts Hsu]]. apply Hg. simpl in Hts.
    destruct (decide (sid = t)) as [<- | Hne].
    + rewrite lookup_insert_eq in Hts. by injection Hts as <-.
    + rewrite lookup_insert_ne in Hts by done. by exists s.
Qed.

Lemma on_user_join_inv st sid s uid :
  inv st → inv (on_user_join sid s uid st).1.
Proof.
  intros [Hnd He Hg]. split; simpl.
  - by apply omap_set_NoDup.
  - intros t u Ht Hu. unfold registered. simpl.
    destruct (decide (sid = t)) as [<- | Hne].
    + rewrite omap_get_set_eq in Ht. injection Ht as ->.
      rewrite lookup_insert_eq. eauto.
    + rewrite omap_get_set_ne in Ht by done.
      rewrite lookup_insert_ne by done. by apply He.
  - intros t u [x [Htx Hxu]]. simpl in Htx.
    destruct (decide (sid = t)) as [<- | Hne].
    + rewrite lookup_insert_eq in Htx. injection Htx as <-.
      simpl in Hxu. injection Hxu as ->. apply omap_get_set_eq.
    + rewrite lookup_insert_ne in Htx by done.
      rewrite omap_get_set_ne by done. apply Hg. by exists x.
Qed.

Lemma registered_delete st st' sid :
  sockets st' = delete sid (sockets st) →
  ∀ t u, registered st' t u ↔ t ≠ sid ∧ registered st t u.
Proof.
  intros E t u. unfold registered. rewrite E. split.
  - intros [x [Htx Hxu]]. apply lookup_delete_Some in Htx as [Hne Htx]. eauto.
  - intros [Hne [x [Htx Hxu]]]. exists x. by rewrite lookup_delete_ne.
Qed.

Lemma on_disconnect_inv st sid :
  inv st → inv (on_disconnect sid st).1.
Proof.
  intros [Hnd He Hg]. unfold on_disconnect.
  destruct (omap_get sid (connectedUsers st)) as [uid|] eqn:Hget;
    [destruct (Js.truthy uid) eqn:Htr |]; split; simpl; try done;
    try (by apply omap_delete_NoDup);
    intros t u; rewrite (registered_delete st _ sid) by done.
  - intros Ht Hu. destruct (decide (sid = t)) as [<- | Hne].
    + by rewrite omap_get_delete_eq in Ht.
    + rewrite omap_get_delete_ne in Ht by done. split; [done | by apply He].
  - intros [Hne Hr]. rewrite omap_get_delete_ne by done. by apply Hg.
  - intros Ht Hu. split; [| by apply He].
    intros ->. rewrite Hget in Ht. injection Ht as ->.
    by apply JsFacts.truthy_false in Htr.
  - intros [Hne Hr]. by apply Hg.
  - intros Ht Hu. split; [| by apply He]. intros ->. congruence.
  - intros [Hne Hr]. by apply Hg.
Qed.

Lemma step_inv st ev : inv st → inv (step st ev).
Proof.
  intros Hinv. unfold step, handle.
  destruct ev; simpl;
    (destruct (sockets st !! sid) as [s|] eqn:Hs; simpl; [| try done]);
    try done;
    try (by apply (inv_transfer st); [| apply registered_same |]).
  - by apply on_connection_inv.
  - by apply on_user_join_inv.
  - apply (inv_transfer st); [done | | done].
    by eapply (registered_update st _ sid s).
  - apply (inv_transfer st); [done | | done].
    by eapply (registered_update st _ sid s).
  - by apply on_disconnect_inv.
Qed.

Lemma run_inv st evs : inv st → inv (run st evs).
Proof.
  revert st. induction evs as [|ev evs IH]; intros st Hinv; simpl; [done |].
  by apply IH, step_inv.
Qed.

Lemma reachable_inv evs : inv (run init evs).
Proof. apply run_inv, init_inv. Qed.


(** *** Presence *)

Lemma online_iff_registered st u :
  inv st → u ≠ "" → isOnline st u ↔ ∃ sid, registered st sid u.
Proof.
  intros [Hnd He Hg] Hu. unfold isOnline, onlineUsers.
  rewrite elem_of_omap_values by done. split.
  - intros [sid Hsid]. exists sid. by apply He.
  - intros [sid Hsid]. exists sid. by apply Hg.
Qed.

Lemma on_disconnect_sockets st sid :
  sockets (on_disconnect sid st).1 = delete sid (sockets st).
Proof.
  unfold on_disconnect.
  destruct (omap_get sid (connectedUsers st)) as [uid|]; [| done].
  by destruct (Js.truthy uid).
Qed.

Lemma disconnect_sockets st sid :
  is_Some (sockets st !! sid) →
  sockets (step st (Disconnect sid)) = delete sid (sockets st).
Proof.
  intros [s Hs]. unfold step, handle. simpl. rewrite Hs.
  apply on_disconnect_sockets.
Qed.

Lemma disconnect_emits_offline st sid u :
  inv st → registered st sid u → u ≠ "" →
  (handle st (Disconnect sid)).2 =
    [ {| target := Broadcast sid; ename := "user:offline"; payload := PUser u |} ].
Proof.
  intros Hinv Hr Hu. pose proof (inv_registered st Hinv sid u Hr) as Hget.
  destruct Hr as [s [Hs _]]. unfold handle. simpl. rewrite Hs.
  unfold on_disconnect. rewrite Hget.
  apply JsFacts.truthy_true in Hu. by rewrite Hu.
Qed.

(** C2, as the specification states it, fails: user [u] has two live
    connections, one of them closes, and the offline event for [u] is
    broadcast all the same, while [u] is still connected and still listed
    online. *)
Lemma offline_fires_while_still_connected :
  let st := run init [Connect "s1"; Connect "s2"; UserJoin "s1" "u"; UserJoin "s2" "u"] in
  registered st "s1" "u" ∧ registered st "s2" "u" ∧
  offline_events (handle st (Disconnect "s1")).2 =
    [ {| target := Broadcast "s1"; ename := "user:offline"; payload := PUser "u" |} ] ∧
  registered (step st (Disconnect "s1")) "s2" "u" ∧
  onlineUsers (step st (Disconnect "s1")) = ["u"].
Proof.
  repeat split; try (eexists; split; by vm_compute); by vm_compute.
Qed.

(** A connection registered under the empty user id keeps its entry when
    it closes: the truthiness test of the disconnect handler takes the empty
    id for no entry at all. *)
Example empty_user_id_stays_listed :
  let st := run init [Connect "a"; UserJoin "a" ""; Disconnect "a"] in
  sockets st = ∅ ∧ onlineUsers st = [""].
Proof. split; by vm_compute. Qed.

(** C2, amended. In every state the server reaches, a user with a non-empty
    id is listed online exactly when some live connection is registered for
    that user; and every disconnect of a connection registered for such a
    user broadcasts exactly one offline event for the user, whether or not
    other connections of the user remain. The user stays listed while another
    connection remains, and is no longer listed after the last one closed. *)
Theorem presence_per_connection (evs : list Event) :
  let st := run init evs in
  (∀ u, u ≠ "" → isOnline st u ↔ ∃ sid, registered st sid u) ∧
  (∀ sid u, registered st sid u → u ≠ "" →
     (handle st (Disconnect sid)).2 =
       [ {| target := Broadcast sid; ename := "user:offline"; payload := PUser u |} ]) ∧
  (∀ sid u, registered st sid u → u ≠ "" →
     isOnline (step st (Disconnect sid)) u ↔ ∃ t, t ≠ sid ∧ registered st t u).
Proof.
  intros st. pose proof (reachable_inv evs) as Hinv. fold st in Hinv.
  split; [| split].
  - intros u Hu. by apply online_iff_registered.
  - intros sid u Hr Hu. by apply disconnect_emits_offline.
  - intros sid u Hr Hu.
    rewrite online_iff_registered; [| by apply step_inv | done].
    assert (Hlive : is_Some (sockets st !! sid)) by (destruct Hr as [s [Hs _]]; eauto).
    pose proof (disconnect_sockets st sid Hlive) as Hdel.
    split.
    + intros [t Ht]. exists t. by apply (registered_delete st _ sid Hdel).
    + intros [t Ht]. exists t. by apply (registered_delete st _ sid Hdel).
Qed.


(** *** Room histories *)

Lemma send_history st sid md now rnd date chat :
  is_Some (sockets st !! sid) →
  history chat (step st (MessageSend sid md now rnd date)) =
    history chat st ++ sends_to chat [MessageSend sid md now rnd date].
Proof.
  intros [s Hs]. unfold step, handle. simpl. rewrite Hs. simpl.
  unfold history at 1. simpl. case_decide as Hc.
  - subst chat. by rewrite lookup_insert_eq.
  - rewrite lookup_insert_ne by done. by rewrite app_nil_r.
Qed.

Lemma other_event_messages st ev :
  (∀ sid md now rnd date, ev ≠ MessageSend sid md now rnd date) →
  messages (step st ev) = messages st.
Proof.
  intros Hev. unfold step, handle.
  destruct ev; simpl; destruct (sockets st !! sid) as [s|]; simpl; try done.
  - by destruct (Hev sid md now rnd date).
  - unfold on_disconnect. destruct (omap_get sid (connectedUsers st)) as [uid|]; [| done].
    by destruct (Js.truthy uid).
Qed.

(** The live sockets after an event. *)
Lemma step_dom st ev :
  dom (sockets (step st ev)) =
    match ev with
    | Connect sid => {[sid]} ∪ dom (sockets st)
    | Disconnect sid => dom (sockets st) ∖ {[sid]}
    | _ => dom (sockets st)
    end.
Proof.
  unfold step, handle.
  destruct ev; simpl; destruct (sockets st !! sid) as [s|] eqn:Hs; simpl;
    rewrite ?dom_insert_L; try done;
    try (apply (elem_of_dom_2 (sockets st)) in Hs; set_solver).
  - by rewrite on_disconnect_sockets, dom_delete_L.
  - apply not_elem_of_dom in Hs. set_solver.
Qed.

Lemma wf_trace_cons st ev evs :
  wf_trace (dom (sockets st)) (ev :: evs) = true →
  wf_trace (dom (sockets (step st ev))) evs = true ∧
  ((∀ sid, ev ≠ Connect sid) → is_Some (sockets st !! event_socket ev)).
Proof.
  rewrite step_dom. destruct ev; simpl; rewrite andb_true_iff;
    intros [Hl Hwf]; apply bool_decide_eq_true in Hl;
    (split; [done |]); intros Hc; try (by apply elem_of_dom).
  by destruct (Hc sid).
Qed.

Lemma step_history st ev chat :
  ((∀ sid, ev ≠ Connect sid) → is_Some (sockets st !! event_socket ev)) →
  history chat (step st ev) = history chat st ++ sends_to chat [ev].
Proof.
  intros Hlive.
  destruct ev;
    try (unfold history at 1; rewrite other_event_messages by done;
         symmetry; apply app_nil_r).
  apply send_history. by apply Hlive.
Qed.

Lemma sends_to_cons chat ev evs :
  sends_to chat (ev :: evs) = sends_to chat [ev] ++ sends_to chat evs.
Proof. destruct ev; try done. simpl. by case_decide. Qed.

Lemma run_history st evs chat :
  wf_trace (dom (sockets st)) evs = true →
  history chat (run st evs) = history chat st ++ sends_to chat evs.
Proof.
  revert st. induction evs as [|ev evs IH]; intros st Hwf.
  - simpl. by rewrite app_nil_r.
  - apply wf_trace_cons in Hwf as [Hwf Hlive].
    change (run st (ev :: evs)) with (run (step st ev) evs).
    rewrite (IH _ Hwf), (step_history st ev chat Hlive).
    by rewrite (sends_to_cons chat ev evs), app_assoc.
Qed.

Lemma sends_to_length chat evs :
  length (sends_to chat evs) = length (List.filter (is_send_to chat) evs).
Proof.
  induction evs as [|ev evs IH]; [done |].
  destruct ev; simpl; try done.
  case_decide as Hc.
  - rewrite bool_decide_eq_true_2 by done. simpl. by rewrite IH.
  - by rewrite bool_decide_eq_false_2.
Qed.

(** Each send of the trace that lands in room [chat] has its message in
    [sends_to], in the same order. *)
Lemma sends_to_stored chat evs :
  Forall2 stored_for (List.filter (is_send_to chat) evs) (sends_to chat evs).
Proof.
  induction evs as [|ev evs IH]; [constructor |].
  destruct ev; simpl; try done.
  case_decide as Hc.
  - rewrite bool_decide_eq_true_2 by done. by constructor.
  - by rewrite bool_decide_eq_false_2.
Qed.

(** The id tells the clock reading and the suffix it was made of. *)
Lemma message_id_inj now rnd now' rnd' :
  message_id now rnd = message_id now' rnd' → now = now' ∧ rnd = rnd'.
Proof.
  unfold message_id. intros H%(inj (String.app "msg_")).
  apply JsFacts.split_at_separator in H as [Hn ->];
    [| apply JsFacts.pretty_N_digits ..].
  by apply (inj pretty) in Hn as ->.
Qed.

Lemma stored_for_id ev m :
  stored_for ev m → ∃ now rnd, draw ev = Some (now, rnd) ∧ id m = message_id now rnd.
Proof. destruct ev; try done. intros (_ & Hid & _). by exists now, rnd. Qed.

(** C1, as the specification states it, fails in the freshness of the
    stamp: two sends that read the same clock value and draw the same suffix
    store two different messages under one id. *)
Lemma same_draw_repeats_id :
  let evs := [ Connect "a";
               MessageSend "a" (plain "u1" "u2" "hello") 1000 "k3j9x0q1z" 1000;
               MessageSend "a" (plain "u1" "u2" "again") 1000 "k3j9x0q1z" 1001 ] in
  wf_trace (dom (sockets init)) evs = true ∧
  id <$> history "chat_u1_u2" (run init evs) =
    ["msg_1000_k3j9x0q1z"; "msg_1000_k3j9x0q1z"] ∧
  content ∘ data <$> history "chat_u1_u2" (run init evs) = ["hello"; "again"].
Proof. by vm_compute. Qed.

(** C1, amended. After any trace of events, a history request for a room is
    answered with the room's earlier history, unchanged, followed by one
    message per send of the trace whose participants resolve to that room, in
    the order of the sends: N sends give exactly N more messages. The message
    of a send is the payload as sent, with the id [msg_<clock>_<suffix>] made
    of the clock reading and the random suffix of that send, and the time of
    the send. Two of these messages have the same id exactly when their sends
    read the same clock value and drew the same suffix. *)
Theorem history_after_sends (st : State) (evs : list Event) (chat sid : string) :
  wf_trace (dom (sockets st)) evs = true →
  is_Some (sockets (run st evs) !! sid) →
  let sends := List.filter (is_send_to chat) evs in
  ∃ new : list Message,
    handle (run st evs) (ChatHistory sid chat) =
      (run st evs,
       [ {| target := ToSocket sid; ename := "chat:history";
            payload := PHistory (history chat st ++ new) |} ]) ∧
    length new = length sends ∧
    Forall2 stored_for sends new ∧
    ∀ i j ei ej mi mj,
      sends !! i = Some ei → sends !! j = Some ej →
      new !! i = Some mi → new !! j = Some mj →
      (id mi = id mj ↔ draw ei = draw ej).
Proof.
  intros Hwf [s Hs] sends. exists (sends_to chat evs).
  pose proof (sends_to_stored chat evs) as Hst. fold sends in Hst.
  split; [| split; [| split]].
  - unfold handle. simpl. rewrite Hs. unfold on_chat_history.
    by rewrite run_history.
  - apply sends_to_length.
  - exact Hst.
  - intros i j ei ej mi mj Hei Hej Hmi Hmj.
    destruct (stored_for_id ei mi) as (n1 & r1 & Hd1 & Hi1);
      [by eapply (Forall2_lookup_lr _ _ _ i) |].
    destruct (stored_for_id ej mj) as (n2 & r2 & Hd2 & Hi2);
      [by eapply (Forall2_lookup_lr _ _ _ j) |].
    rewrite Hd1, Hd2, Hi1, Hi2. split.
    + by intros [-> ->]%message_id_inj.
    + by intros [= -> ->].
Qed.

(** The two-message conversation, as an instance: from the initial state
    the answer is the two messages alone. *)
Lemma history_after_sends_witness :
  wf_trace (dom (sockets init)) conversation = true ∧
  is_Some (sockets (run init conversation) !! "a") ∧
  handle (run init conversation) (ChatHistory "a" "chat_u1_u2") =
    (run init conversation,
     [ {| target := ToSocket "a"; ename := "chat:history";
          payload := PHistory
            [ {| data := plain "u1" "u2" "hello"; id := "msg_1000_k3j9x0q1z";
                 timestamp := 1000 |};
              {| data := plain "u2" "u1" "hi"; id := "msg_1001_p0o9i8u7y";
                 timestamp := 1002 |} ] |} ]).
Proof.
  assert (Hwf : wf_trace (dom (sockets init)) conversation = true) by (by vm_compute).
  assert (Hlive : is_Some (sockets (run init conversation) !! "a"))
    by (vm_compute; eauto).
  split; [exact Hwf |]. split; [exact Hlive |].
  destruct (history_after_sends init conversation "chat_u1_u2" "a" Hwf Hlive)
    as (new & Hh & _ & Hst & _).
  rewrite Hh. do 4 f_equal.
  change (List.filter (is_send_to "chat_u1_u2") conversation) with
    [ MessageSend "a" (plain "u1" "u2" "hello") 1000 "k3j9x0q1z" 1000;
      MessageSend "b" (plain "u2" "u1" "hi") 1001 "p0o9i8u7y" 1002 ] in Hst.
  inversion Hst as [| e1 m1 l1 new1 H1 Hst1]; subst.
  inversion Hst1 as [| e2 m2 l2 new2 H2 Hst2]; subst.
  inversion Hst2; subst.
  destruct H1 as (Hd1 & Hi1 & Ht1), H2 as (Hd2 & Hi2 & Ht2).
  clear Hh Hst Hst1 Hst2. destruct m1 as [d1 i1 t1], m2 as [d2 i2 t2].
  cbn [data id timestamp] in Hd1, Hi1, Ht1, Hd2, Hi2, Ht2. subst.
  by vm_compute.
Defined.

(** *** The active room *)

Lemma attached_room_event st o t uid :
  attached st t uid → attached (step st (room_event o)) t uid.
Proof.
  intros [x [Htx Hxu]]. unfold attached, step, handle.
  destruct o as [sid [chat | chat]]; simpl;
    (destruct (sockets st !! sid) as [s|] eqn:Hs; simpl; [| by eauto]);
    (destruct (decide (sid = t)) as [-> | Hne];
       [rewrite lookup_insert_eq; rewrite Hs in Htx; injection Htx as ->; eauto
       | rewrite lookup_insert_ne by done; eauto]).
Qed.

Lemma attached_room_events st os t uid :
  attached st t uid → attached (run st (room_event <$> os)) t uid.
Proof.
  revert st. induction os as [|o os IH]; intros st Ht; [done |].
  simpl. by apply IH, attached_room_event.
Qed.

(** C3, as the specification states it, fails: the user is in room [r1],
    leaves the other room [r2], and the mapping is cleared. *)
Lemma stale_leave_clears_room :
  let st := run init [Connect "a"; UserJoin "a" "u"; ChatJoin "a" "r1"] in
  currentRoom st (Some "u") = Some "r1" ∧
  "r1" ≠ "r2" ∧
  currentRoom (step st (ChatLeave "a" "r2")) (Some "u") = None.
Proof. by vm_compute. Qed.

(** C3, amended. A leave clears the user's active-room mapping whatever
    room it names. After any sequence of joins and leaves issued on
    connections of one user, the mapping is the room of the last operation
    when that is a join, and none when it is a leave. *)
Theorem current_room_after_ops (st : State) (uid : option string)
    (ops : list (string * RoomOp)) (sid : string) (op : RoomOp) :
  attached st sid uid →
  currentRoom (run st (room_event <$> (ops ++ [(sid, op)]))) uid =
    match op with
    | Join chat => Some chat
    | Leave _ => None
    end.
Proof.
  intros Hsid. rewrite fmap_app. unfold run. rewrite foldl_app. simpl.
  fold (run st (room_event <$> ops)).
  destruct (attached_room_events st ops sid uid Hsid) as [s [Hs Hu]].
  unfold currentRoom, step, handle. destruct op as [chat | chat]; simpl; rewrite Hs; simpl.
  - by rewrite Hu, lookup_insert_eq.
  - by rewrite Hu, lookup_delete_eq.
Qed.

(** Two sessions of one user joining and leaving, as an instance. *)
Lemma current_room_after_ops_witness :
  attached (run init two_sessions) "a2" (Some "u1") ∧
  currentRoom
    (run (run init two_sessions)
       (room_event <$> ([("a1", Join "r1"); ("a2", Join "r2"); ("a1", Leave "r1")]
                          ++ [("a2", Leave "r9")])))
    (Some "u1") = None.
Proof.
  assert (H : attached (run init two_sessions) "a2" (Some "u1"))
    by (eexists; split; by vm_compute).
  split; [exact H |].
  exact (current_room_after_ops (run init two_sessions) (Some "u1")
           [("a1", Join "r1"); ("a2", Join "r2"); ("a1", Leave "r1")]
           "a2" (Leave "r9") H).
Defined.


(** *** Delivery of a sent message *)

Lemma elem_of_members room st t :
  t ∈ members room st ↔ ∃ s, sockets st !! t = Some s ∧ room ∈ rooms s.
Proof.
  unfold members. rewrite elem_of_dom. unfold is_Some.
  setoid_rewrite map_lookup_filter_Some. naive_solver.
Qed.



(** A connection that left its personal room by [chat:leave] is registered
    for the recipient and receives nothing. *)
Example left_personal_room_misses_message :
  let st := run init (two_sessions ++ [ChatLeave "b" "user_u2"]) in
  let r := handle st (MessageSend "a1" (plain "u1" "u2" "hello") 1000 "k3j9x0q1z" 1000) in
  registered st "b" "u2" ∧ "b" ∉ receivers r.1 "message:receive" r.2.
Proof.
  split.
  - eexists; split; by vm_compute.
  - apply (bool_decide_unpack _). by vm_compute.
Qed.

(** A connection that joined the room named by the sender's socket id is
    registered for the recipient, is in the recipient's personal room, and
    receives nothing. *)
Example joined_sender_room_misses_message :
  let st := run init (two_sessions ++ [ChatJoin "b" "a1"]) in
  let r := handle st (MessageSend "a1" (plain "u1" "u2" "hello") 1000 "k3j9x0q1z" 1000) in
  registered st "b" "u2" ∧
  "b" ∈ members (user_room "u2") st ∧
  "b" ∉ receivers r.1 "message:receive" r.2.
Proof.
  split; [| split].
  - eexists; split; by vm_compute.
  - apply (bool_decide_unpack _). by vm_compute.
  - apply (bool_decide_unpack _). by vm_compute.
Qed.

(** A sender that left the room of its own socket id and writes to its own
    user is reached by both emissions. *)
Example sender_outside_own_room_is_reached_twice :
  let st := run init [Connect "a"; UserJoin "a" "u1"; ChatLeave "a" "a"] in
  let r := handle st (MessageSend "a" (plain "u1" "u1" "note") 1000 "k3j9x0q1z" 1000) in
  Forall (λ e, "a" ∈ recipients r.1 (target e)) r.2 ∧ length r.2 = 2.
Proof.
  split; [| done].
  repeat constructor; apply (bool_decide_unpack _); by vm_compute.
Qed.




End RelayProofs.

(** ** The translation service: proofs *)

Module TranslationProofs.

Import Translation.

(** *** How a call unfolds *)

Section monad.

Context {E E' A B : Type}.

Lemma bind_inr (m : M E A) (k : A → M E B) w b w' :
  (m ≫= k) w = (inr b, w') ↔ ∃ a w1, m w = (inr a, w1) ∧ k a w1 = (inr b, w').
Proof.
  unfold mbind, M_bind, bind. destruct (m w) as [[e | a] w1]; naive_solver.
Qed.

Lemma bind_inl (m : M E A) (k : A → M E B) w e w' :
  (m ≫= k) w = (inl e, w') ↔
    m w = (inl e, w') ∨ ∃ a w1, m w = (inr a, w1) ∧ k a w1 = (inl e, w').
Proof.
  unfold mbind, M_bind, bind. destruct (m w) as [[e0 | a] w1]; naive_solver.
Qed.

Lemma try_catch_inl (m : M E A) (h : E → M E' A) w e w' :
  try_catch m h w = (inl e, w') ↔ ∃ e0 w0, m w = (inl e0, w0) ∧ h e0 w0 = (inl e, w').
Proof.
  unfold try_catch. destruct (m w) as [[e0 | a] w0]; naive_solver.
Qed.

Lemma try_catch_inr (m : M E A) (h : E → M E' A) w a w' :
  try_catch m h w = (inr a, w') ↔
    m w = (inr a, w') ∨ ∃ e0 w0, m w = (inl e0, w0) ∧ h e0 w0 = (inr a, w').
Proof.
  unfold try_catch. destruct (m w) as [[e0 | a0] w0]; naive_solver.
Qed.

End monad.

(** Each provider call is an instance of [provider_call]. *)
Lemma translateTextOpenAI_shape text targetLang sourceLang :
  ∃ request,
    translateTextOpenAI text targetLang sourceLang =
      provider_call openaiApiKey "OpenAI API key not configured" request "OpenAI" trim
        (λ t, {| translatedText := t; sourceLanguage := sourceLang;
                 targetLanguage := targetLang; confidence := Some 0.95%Q |})
        (λ e, {| error := "Translation failed"; code := "OPENAI_ERROR";
                 details := Some (error_details e) |})
    ∧ ∀ c, url (request c) = "https://api.openai.com/v1/chat/completions".
Proof. eexists. split; [reflexivity | done]. Qed.

Lemma translateDocumentGemini_shape documentContent targetLang sourceLang :
  ∃ request,
    translateDocumentGemini documentContent targetLang sourceLang =
      provider_call geminiApiKey "Gemini API key not configured" request "Gemini" id
        (λ t, {| translatedText := t; sourceLanguage := sourceLang;
                 targetLanguage := targetLang; confidence := Some 0.92%Q |})
        (λ e, {| error := "Document translation failed"; code := "GEMINI_ERROR";
                 details := Some (error_details e) |})
    ∧ ∀ c, url (request c) =
        "https://generativelanguage.googleapis.com/v1beta/models/gemini-pro:generateContent?key="
          +:+ geminiApiKey c.
Proof. eexists. split; [reflexivity | done]. Qed.

Lemma translateTextClaude_shape text targetLang sourceLang context :
  ∃ request,
    translateTextClaude text targetLang sourceLang context =
      provider_call claudeApiKey "Claude API key not configured" request "Claude" id
        (λ t, {| translatedText := t; sourceLanguage := sourceLang;
                 targetLanguage := targetLang; confidence := Some 0.98%Q |})
        (λ e, {| error := "Formal translation failed"; code := "CLAUDE_ERROR";
                 details := Some (error_details e) |})
    ∧ ∀ c, url (request c) = "https://api.anthropic.com/v1/messages".
Proof. eexists. split; [reflexivity | done]. Qed.

Section provider_call.

Context (key : ApiConfig → string) (missing : string)
  (request : ApiConfig → Request) (provider : string) (post : string → string)
  (result : string → TranslationResult) (failure : JsThrown → TranslationError).

Local Abbreviation call :=
  (provider_call key missing request provider post result failure).

(** A failed call throws what [failure] builds. *)
Lemma provider_call_inl w e w' :
  call w = (inl e, w') → ∃ e0, e = failure e0.
Proof.
  intros (e0 & w0 & _ & Hh)%try_catch_inl. exists e0. by injection Hh as <- _.
Qed.

(** A successful call returns what [result] builds from a truthy text. *)
Lemma provider_call_inr w r w' :
  call w = (inr r, w') → ∃ t, r = result t ∧ Js.truthy t = true.
Proof.
  intros [H | (e0 & w0 & _ & [=])]%try_catch_inr.
  apply bind_inr in H as (c & w1 & _ & H).
  apply bind_inr in H as (_ & w2 & _ & H).
  apply bind_inr in H as (resp & w3 & _ & H).
  apply bind_inr in H as (t & w4 & Hread & H).
  injection H as <- _. exists t. split; [done |].
  unfold read_translation in Hread.
  destruct (negb (ok resp)); [done |].
  destruct (json resp) as [e | e | | s]; try done.
  destruct (Js.truthy (post s)) eqn:Ht; [| done].
  by injection Hread as <- _.
Qed.

Lemma read_translation_world resp w : (read_translation provider post resp w).2 = w.
Proof.
  unfold read_translation. destruct (negb (ok resp)); [done |].
  destruct (json resp) as [e | e | | s]; try done.
  by destruct (Js.truthy (post s)).
Qed.

(** What a call sends: nothing without a key, one request with one. *)
Lemma provider_call_sent w :
  let c := spread (config w) (runtimeConfig w) in
  sent (call w).2 =
    if Js.truthy (key c) then sent w ++ [request c] else sent w.
Proof.
  unfold call, provider_call, try_catch, mbind, M_bind, bind, getRuntimeConfig.
  simpl. destruct (Js.truthy (key _)); simpl; [| done].
  unfold fetch.
  destruct (network w (length (sent w)) _) as [e | resp]; simpl; [done |].
  match goal with
  | |- context [read_translation provider post resp ?w1] =>
      pose proof (read_translation_world resp w1) as Hw;
      destruct (read_translation provider post resp w1) as [[e | t] w2]
  end; simpl in *; by subst.
Qed.

End provider_call.

(** *** The three provider calls *)

Lemma openai_failure text targetLang sourceLang w e w' :
  translateTextOpenAI text targetLang sourceLang w = (inl e, w') →
  error e = "Translation failed" ∧ code e = "OPENAI_ERROR".
Proof.
  destruct (translateTextOpenAI_shape text targetLang sourceLang) as [req [-> _]].
  by intros [e0 ->]%provider_call_inl.
Qed.

Lemma gemini_failure documentContent targetLang sourceLang w e w' :
  translateDocumentGemini documentContent targetLang sourceLang w = (inl e, w') →
  error e = "Document translation failed" ∧ code e = "GEMINI_ERROR".
Proof.
  destruct (translateDocumentGemini_shape documentContent targetLang sourceLang)
    as [req [-> _]].
  by intros [e0 ->]%provider_call_inl.
Qed.

Lemma claude_failure text targetLang sourceLang context w e w' :
  translateTextClaude text targetLang sourceLang context w = (inl e, w') →
  error e = "Formal translation failed" ∧ code e = "CLAUDE_ERROR".
Proof.
  destruct (translateTextClaude_shape text targetLang sourceLang context)
    as [req [-> _]].
  by intros [e0 ->]%provider_call_inl.
Qed.

Lemma openai_success text targetLang sourceLang w r w' :
  translateTextOpenAI text targetLang sourceLang w = (inr r, w') →
  confidence r = Some 0.95%Q ∧ targetLanguage r = targetLang ∧
  sourceLanguage r = sourceLang ∧ translatedText r ≠ "".
Proof.
  destruct (translateTextOpenAI_shape text targetLang sourceLang) as [req [-> _]].
  intros (t & -> & Ht%JsFacts.truthy_true)%provider_call_inr. done.
Qed.

Lemma gemini_success documentContent targetLang sourceLang w r w' :
  translateDocumentGemini documentContent targetLang sourceLang w = (inr r, w') →
  confidence r = Some 0.92%Q ∧ targetLanguage r = targetLang ∧
  sourceLanguage r = sourceLang ∧ translatedText r ≠ "".
Proof.
  destruct (translateDocumentGemini_shape documentContent targetLang sourceLang)
    as [req [-> _]].
  intros (t & -> & Ht%JsFacts.truthy_true)%provider_call_inr. done.
Qed.

Lemma claude_success text targetLang sourceLang context w r w' :
  translateTextClaude text targetLang sourceLang context w = (inr r, w') →
  confidence r = Some 0.98%Q ∧ targetLanguage r = targetLang ∧
  sourceLanguage r = sourceLang ∧ translatedText r ≠ "".
Proof.
  destruct (translateTextClaude_shape text targetLang sourceLang context)
    as [req [-> _]].
  intros (t & -> & Ht%JsFacts.truthy_true)%provider_call_inr. done.
Qed.

(** A provider call makes at most one request, and only adds to the log. *)
Lemma openai_sent text targetLang sourceLang w :
  ∃ extra, sent (translateTextOpenAI text targetLang sourceLang w).2 = sent w ++ extra
           ∧ length extra ≤ 1.
Proof.
  destruct (translateTextOpenAI_shape text targetLang sourceLang) as [req [-> _]].
  rewrite provider_call_sent. simpl.
  destruct (Js.truthy _); [by eexists [_] |].
  exists []. rewrite app_nil_r. split; [done | simpl; lia].
Qed.

(** With the provider's key configured the call makes its request, to the
    provider's address. *)
Lemma openai_request text targetLang sourceLang w :
  openaiApiKey (spread (config w) (runtimeConfig w)) ≠ "" →
  url <$> first_request w (translateTextOpenAI text targetLang sourceLang w).2 =
    Some "https://api.openai.com/v1/chat/completions"
  ∧ length (sent (translateTextOpenAI text targetLang sourceLang w).2) = S (length (sent w)).
Proof.
  intros Hk%JsFacts.truthy_true. unfold first_request.
  destruct (translateTextOpenAI_shape text targetLang sourceLang) as [req [-> Hurl]].
  rewrite provider_call_sent. cbv zeta. rewrite Hk.
  rewrite lookup_app_r, Nat.sub_diag by done. simpl.
  by rewrite Hurl, length_app, Nat.add_1_r.
Qed.

Lemma gemini_request documentContent targetLang sourceLang w :
  geminiApiKey (spread (config w) (runtimeConfig w)) ≠ "" →
  url <$> first_request w (translateDocumentGemini documentContent targetLang sourceLang w).2 =
    Some ("https://generativelanguage.googleapis.com/v1beta/models/gemini-pro:generateContent?key="
            +:+ geminiApiKey (spread (config w) (runtimeConfig w)))
  ∧ length (sent (translateDocumentGemini documentContent targetLang sourceLang w).2)
      = S (length (sent w)).
Proof.
  intros Hk%JsFacts.truthy_true. unfold first_request.
  destruct (translateDocumentGemini_shape documentContent targetLang sourceLang)
    as [req [-> Hurl]].
  rewrite provider_call_sent. cbv zeta. rewrite Hk.
  rewrite lookup_app_r, Nat.sub_diag by done. simpl.
  by rewrite Hurl, length_app, Nat.add_1_r.
Qed.

Lemma claude_request text targetLang sourceLang context w :
  claudeApiKey (spread (config w) (runtimeConfig w)) ≠ "" →
  url <$> first_request w (translateTextClaude text targetLang sourceLang context w).2 =
    Some "https://api.anthropic.com/v1/messages"
  ∧ length (sent (translateTextClaude text targetLang sourceLang context w).2)
      = S (length (sent w)).
Proof.
  intros Hk%JsFacts.truthy_true. unfold first_request.
  destruct (translateTextClaude_shape text targetLang sourceLang context)
    as [req [-> Hurl]].
  rewrite provider_call_sent. cbv zeta. rewrite Hk.
  rewrite lookup_app_r, Nat.sub_diag by done. simpl.
  by rewrite Hurl, length_app, Nat.add_1_r.
Qed.

(** Without its key a provider call fails at once, and says so in the
    details. *)
Lemma openai_missing_key text targetLang sourceLang w :
  openaiApiKey (spread (config w) (runtimeConfig w)) = "" →
  translateTextOpenAI text targetLang sourceLang w =
    (inl {| error := "Translation failed"; code := "OPENAI_ERROR";
            details := Some "OpenAI API key not configured" |}, w).
Proof.
  intros Hk. unfold translateTextOpenAI, try_catch, mbind, M_bind, bind, getRuntimeConfig.
  by rewrite Hk.
Qed.


(** *** Error codes *)

(** C8, as the specification states it, fails: with no OpenAI key
    configured the call fails with code [OPENAI_ERROR], which is none of
    [BACKEND_UNAVAILABLE], [BACKEND_HTTP_ERROR], [EMPTY_RESPONSE]. *)
Lemma missing_key_code_outside_taxonomy :
  (translateTextOpenAI "hello" "es" None nothing_configured).1 =
    inl {| error := "Translation failed"; code := "OPENAI_ERROR";
           details := Some "OpenAI API key not configured" |}
  ∧ "OPENAI_ERROR" ∉ ["BACKEND_UNAVAILABLE"; "BACKEND_HTTP_ERROR"; "EMPTY_RESPONSE"].
Proof.
  split; [by vm_compute |]. apply (bool_decide_unpack _). by vm_compute.
Qed.

(** C8, amended. Every provider call that fails, whatever the cause, throws
    a [TranslationError] whose code is the one constant of that provider:
    [OPENAI_ERROR], [GEMINI_ERROR] or [CLAUDE_ERROR]. *)
Theorem backend_error_codes (text : string) (targetLang : SupportedLanguage)
    (sourceLang : option SupportedLanguage) (context : option ClaudeContext)
    (w : World) (e : TranslationError) (w' : World) :
  (translateTextOpenAI text targetLang sourceLang w = (inl e, w') →
     code e = "OPENAI_ERROR") ∧
  (translateDocumentGemini text targetLang sourceLang w = (inl e, w') →
     code e = "GEMINI_ERROR") ∧
  (translateTextClaude text targetLang sourceLang context w = (inl e, w') →
     code e = "CLAUDE_ERROR").
Proof.
  split; [| split].
  - by intros [_ H]%openai_failure.
  - by intros [_ H]%gemini_failure.
  - by intros [_ H]%claude_failure.
Qed.

(** The Gemini call without a Gemini key, as an instance. *)
Lemma backend_error_codes_witness :
  let e := {| error := "Document translation failed"; code := "GEMINI_ERROR";
              details := Some "Gemini API key not configured" |} in
  translateDocumentGemini "dear sir" "es" None gemini_unavailable =
    (inl e, gemini_unavailable)
  ∧ code e = "GEMINI_ERROR".
Proof.
  intros e.
  assert (H : translateDocumentGemini "dear sir" "es" None gemini_unavailable =
                (inl e, gemini_unavailable)) by reflexivity.
  split; [exact H |].
  exact (proj1 (proj2 (backend_error_codes "dear sir" "es" None None
                         gemini_unavailable e gemini_unavailable)) H).
Defined.

(** *** Routing and fallback *)

Lemma selected_failure mt text targetLang w e w1 :
  selected mt text targetLang w = (inl e, w1) →
  code e = match mt with
           | casual => "OPENAI_ERROR"
           | document => "GEMINI_ERROR"
           | formal => "CLAUDE_ERROR"
           end.
Proof.
  destruct mt; simpl.
  - by intros [_ H]%openai_failure.
  - by intros [_ H]%gemini_failure.
  - by intros [_ H]%claude_failure.
Qed.

(** C6. When the selected provider call fails: for class casual
    [autoTranslate] throws that error and does nothing more; for the other
    classes it makes one call to the OpenAI provider, returns its result if
    that succeeds, and throws the error of the selected provider (whose code
    differs from the one of the fallback) if that fails too. *)
Theorem fallback_policy (text : string) (targetLang : SupportedLanguage)
    (mt : MessageType) (w : World) (e : TranslationError) (w1 : World) :
  selected mt text targetLang w = (inl e, w1) →
  match mt with
  | casual => autoTranslate text targetLang (Some casual) w = (inl e, w1)
  | _ =>
      let retry := translateTextOpenAI text targetLang None w1 in
      (autoTranslate text targetLang (Some mt) w).2 = retry.2 ∧
      length (sent retry.2) ≤ S (length (sent w1)) ∧
      match retry.1 with
      | inr r => (autoTranslate text targetLang (Some mt) w).1 = inr r
      | inl e' => (autoTranslate text targetLang (Some mt) w).1 = inl e
                  ∧ code e ≠ code e'
      end
  end.
Proof.
  intros Hsel. pose proof (selected_failure _ _ _ _ _ _ Hsel) as Hcode.
  destruct mt; unfold autoTranslate, try_catch; simpl in *; rewrite Hsel; simpl;
    [done | |];
    (destruct (openai_sent text targetLang None w1) as (extra & Hsent & Hlen);
     rewrite Hsent, length_app;
     destruct (translateTextOpenAI text targetLang None w1) as [[e' | r] w2] eqn:Hretry;
     simpl; (split; [done |]); (split; [lia |]); [| done];
     split; [done |];
     apply openai_failure in Hretry as [_ ->]; by rewrite Hcode).
Qed.

(** The fallback law of the specification, as an instance: no Gemini key,
    OpenAI answers, and a document is translated by OpenAI. *)
Lemma fallback_policy_witness :
  selected document "dear sir" "es" gemini_unavailable =
    (inl {| error := "Document translation failed"; code := "GEMINI_ERROR";
            details := Some "Gemini API key not configured" |}, gemini_unavailable)
  ∧ (autoTranslate "dear sir" "es" (Some document) gemini_unavailable).1 =
      inr {| translatedText := "hola"; sourceLanguage := None;
             targetLanguage := "es"; confidence := Some 0.95%Q |}.
Proof.
  split; [reflexivity |].
  exact (proj2 (proj2 (fallback_policy "dear sir" "es" document gemini_unavailable
                         {| error := "Document translation failed"; code := "GEMINI_ERROR";
                            details := Some "Gemini API key not configured" |}
                         gemini_unavailable eq_refl))).
Defined.

Lemma autoTranslate_sent text targetLang mt w :
  ∃ extra,
    sent (autoTranslate text targetLang (Some mt) w).2 =
      sent (selected mt text targetLang w).2 ++ extra.
Proof.
  unfold autoTranslate, try_catch. simpl.
  destruct (selected mt text targetLang w) as [[e | r] w1]; simpl.
  - destruct mt; simpl; [exists []; by rewrite app_nil_r | |];
      (destruct (openai_sent text targetLang None w1) as (extra & Hsent & _);
       exists extra; rewrite <- Hsent;
       by destruct (translateTextOpenAI text targetLang None w1) as [[e' | r] w2]).
  - exists []. by rewrite app_nil_r.
Qed.

(** The first request of [autoTranslate] is the one of the selected call. *)
Lemma autoTranslate_first_request text targetLang mt w u :
  url <$> first_request w (selected mt text targetLang w).2 = Some u →
  url <$> first_request w (autoTranslate text targetLang (Some mt) w).2 = Some u.
Proof.
  destruct (autoTranslate_sent text targetLang mt w) as [extra Hx].
  unfold first_request. rewrite Hx.
  destruct (sent (selected mt text targetLang w).2 !! length (sent w)) as [req|] eqn:Hf;
    [| done].
  by rewrite (lookup_app_l_Some _ _ _ _ Hf).
Qed.

(** C7. [autoTranslate] routes by message class. Class document goes to the
    Gemini call, class formal to the Claude call (with the formal context),
    class casual, and no class at all, to the OpenAI call: when that call
    succeeds its result is the result, and with the provider's key configured
    the first request made goes to that provider's address. *)
Theorem routing_table (text : string) (targetLang : SupportedLanguage) (w : World) :
  let c := spread (config w) (runtimeConfig w) in
  autoTranslate text targetLang None w = autoTranslate text targetLang (Some casual) w ∧
  (∀ r w1, translateDocumentGemini text targetLang None w = (inr r, w1) →
     autoTranslate text targetLang (Some document) w = (inr r, w1)) ∧
  (∀ r w1, translateTextClaude text targetLang None (Some formal_context) w = (inr r, w1) →
     autoTranslate text targetLang (Some formal) w = (inr r, w1)) ∧
  (∀ r w1, translateTextOpenAI text targetLang None w = (inr r, w1) →
     autoTranslate text targetLang (Some casual) w = (inr r, w1)) ∧
  (geminiApiKey c ≠ "" →
     url <$> first_request w (autoTranslate text targetLang (Some document) w).2 =
       Some ("https://generativelanguage.googleapis.com/v1beta/models/gemini-pro:generateContent?key="
               +:+ geminiApiKey c)) ∧
  (claudeApiKey c ≠ "" →
     url <$> first_request w (autoTranslate text targetLang (Some formal) w).2 =
       Some "https://api.anthropic.com/v1/messages") ∧
  (openaiApiKey c ≠ "" →
     url <$> first_request w (autoTranslate text targetLang (Some casual) w).2 =
       Some "https://api.openai.com/v1/chat/completions").
Proof.
  intros c. repeat split.
  - intros r w1 H. unfold autoTranslate, try_catch. simpl. by rewrite H.
  - intros r w1 H. unfold autoTranslate, try_catch. simpl. by rewrite H.
  - intros r w1 H. unfold autoTranslate, try_catch. simpl. by rewrite H.
  - intros Hk. apply autoTranslate_first_request.
    by apply (gemini_request text targetLang None w).
  - intros Hk. apply autoTranslate_first_request.
    by apply (claude_request text targetLang None (Some formal_context) w).
  - intros Hk. apply autoTranslate_first_request.
    by apply (openai_request text targetLang None w).
Qed.


(** *** Batches *)

Lemma item_outcomes_length messages targetLang w :
  length (item_outcomes messages targetLang w) = length messages.
Proof.
  revert w. induction messages as [|m ms IH]; intros w; simpl; [done |].
  by rewrite IH.
Qed.

(** The loop never throws; it pushes one result per item, the one
    [item_result] describes. *)
Lemma batch_loop_spec messages targetLang results w :
  ∃ w', batch_loop messages targetLang results w =
          (inr (results ++ zip_with (item_result targetLang) messages
                             (item_outcomes messages targetLang w)), w').
Proof.
  revert results w. induction messages as [|m ms IH]; intros results w; simpl.
  - exists w. by rewrite app_nil_r.
  - unfold mbind, M_bind, bind, try_catch.
    destruct (autoTranslate (text m) targetLang (type m) w) as [o w1].
    destruct (IH (results ++ [item_result targetLang m o]) w1) as [w' Hw'].
    exists w'. destruct o as [e | r]; simpl in *; by rewrite Hw', <- app_assoc.
Qed.

Lemma batchTranslate_spec messages targetLang w :
  ∃ w', batchTranslate messages targetLang w =
          (inr (zip_with (item_result targetLang) messages
                  (item_outcomes messages targetLang w)), w').
Proof. apply (batch_loop_spec messages targetLang []). Qed.

(** C9. [batchTranslate] never throws and returns one result per item, in
    order. The result of an item is what [autoTranslate] returned for it; for
    an item on which [autoTranslate] failed, fallback included, it is the
    item's own text with confidence 0 and the requested target language. *)
Theorem batch_isolation (messages : list BatchItem) (targetLang : SupportedLanguage)
    (w : World) :
  ∃ results w',
    batchTranslate messages targetLang w = (inr results, w') ∧
    length results = length messages ∧
    ∀ i message, messages !! i = Some message →
      match item_outcomes messages targetLang w !! i with
      | Some (inr result) => results !! i = Some result
      | Some (inl _) =>
          results !! i = Some {| translatedText := text message;
                                 sourceLanguage := None;
                                 targetLanguage := targetLang;
                                 confidence := Some 0%Q |}
      | None => False
      end.
Proof.
  destruct (batchTranslate_spec messages targetLang w) as [w' Hw'].
  eexists _, w'. split; [exact Hw' |]. split.
  - rewrite length_zip_with, item_outcomes_length. lia.
  - intros i m Hm. rewrite lookup_zip_with, Hm. simpl.
    destruct (item_outcomes messages targetLang w !! i) as [[e | r] |] eqn:Ho; try done.
    apply lookup_ge_None in Ho. rewrite item_outcomes_length in Ho.
    apply lookup_lt_Some in Hm. lia.
Qed.

(** Three items, the second of which fails in its provider and in the
    fallback: three results, the second being the original text. *)
Example second_of_three_degrades :
  item_outcomes three_items "es" second_item_fails !! 1 =
    Some (inl {| error := "Document translation failed"; code := "GEMINI_ERROR";
                 details := Some "fetch failed" |})
  ∧ (batchTranslate three_items "es" second_item_fails).1 =
      inr [ {| translatedText := "hola"; sourceLanguage := None;
               targetLanguage := "es"; confidence := Some 0.95%Q |};
            {| translatedText := "dear sir"; sourceLanguage := None;
               targetLanguage := "es"; confidence := Some 0%Q |};
            {| translatedText := "hola"; sourceLanguage := None;
               targetLanguage := "es"; confidence := Some 0.98%Q |} ].
Proof. split; by vm_compute. Qed.

(** *** Confidence *)

Lemma selected_success mt text targetLang w r w' :
  selected mt text targetLang w = (inr r, w') →
  ∃ c, confidence r = Some c ∧ (0 < c)%Q.
Proof.
  destruct mt; simpl.
  - intros (-> & _)%openai_success. by eexists.
  - intros (-> & _)%gemini_success. by eexists.
  - intros (-> & _)%claude_success. by eexists.
Qed.

(** Whatever [autoTranslate] returns has a positive confidence. *)
Lemma autoTranslate_success text targetLang messageType w r w' :
  autoTranslate text targetLang messageType w = (inr r, w') →
  ∃ c, confidence r = Some c ∧ (0 < c)%Q.
Proof.
  unfold autoTranslate.
  intros [H | (e & w1 & _ & H)]%try_catch_inr.
  - by apply selected_success in H.
  - destruct (negb (is_casual (default casual messageType))); [| done].
    apply try_catch_inr in H as [H | (e' & w2 & _ & [=])].
    apply openai_success in H as (-> & _). by eexists.
Qed.

Lemma item_outcomes_lookup messages targetLang w i o :
  item_outcomes messages targetLang w !! i = Some o →
  ∃ message w0,
    messages !! i = Some message ∧
    (autoTranslate (text message) targetLang (type message) w0).1 = o.
Proof.
  revert w i. induction messages as [|m ms IH]; intros w i; simpl; [done |].
  destruct i as [|i]; simpl.
  - intros [= <-]. by exists m, w.
  - apply IH.
Qed.

(** C10. A successful provider call returns its provider's constant
    confidence, 0.95 for OpenAI, 0.92 for Gemini and 0.98 for Claude, all
    positive; so in the results of a batch the confidence is zero exactly for
    the items on which [autoTranslate] failed. *)
Theorem confidence_marks_failure (input : string) (targetLang : SupportedLanguage)
    (sourceLang : option SupportedLanguage) (context : option ClaudeContext)
    (messages : list BatchItem) (w : World) :
  (∀ r w', translateTextOpenAI input targetLang sourceLang w = (inr r, w') →
     confidence r = Some 0.95%Q) ∧
  (∀ r w', translateDocumentGemini input targetLang sourceLang w = (inr r, w') →
     confidence r = Some 0.92%Q) ∧
  (∀ r w', translateTextClaude input targetLang sourceLang context w = (inr r, w') →
     confidence r = Some 0.98%Q) ∧
  (0 < 0.95 ∧ 0 < 0.92 ∧ 0 < 0.98)%Q ∧
  (∀ results w', batchTranslate messages targetLang w = (inr results, w') →
     ∀ i o r, item_outcomes messages targetLang w !! i = Some o →
       results !! i = Some r →
       (zero_confidence r ↔ ∃ e, o = inl e)).
Proof.
  split; [| split; [| split; [| split]]].
  - by intros r w' (H & _)%openai_success.
  - by intros r w' (H & _)%gemini_success.
  - by intros r w' (H & _)%claude_success.
  - done.
  - intros results w' Hrun i o r Ho Hr.
    destruct (batchTranslate_spec messages targetLang w) as [w0 Hspec].
    rewrite Hspec in Hrun. injection Hrun as <- _.
    destruct (item_outcomes_lookup _ _ _ _ _ Ho) as (m & w1 & Hm & Hauto).
    rewrite lookup_zip_with, Hm, Ho in Hr. simpl in Hr. injection Hr as <-.
    destruct o as [e | r]; simpl.
    + split; [eauto |]. intros _. by exists 0%Q.
    + split; [| by intros [e [=]]].
      intros (c & Hc & Hzero).
      destruct (autoTranslate (text m) targetLang (type m) w1) as [o' w2] eqn:Hrun.
      simpl in Hauto. subst o'.
      apply autoTranslate_success in Hrun as (c' & Hc' & Hpos).
      rewrite Hc in Hc'. injection Hc' as <-.
      rewrite Hzero in Hpos. by apply Qlt_irrefl in Hpos.
Qed.


End TranslationProofs.

(** ** The relay server: further laws *)

Module RelayLaws.

Import Relay RelayTraces RelayProofs.

(** *** Events that leave no trace *)

Lemma step_ephemeral st ev : is_ephemeral ev = true → step st ev = st.
Proof.
  unfold step, handle.
  destruct ev; try done; simpl; by destruct (sockets st !! sid).
Qed.

(** X1. Typing indicators, history requests and client presence pings are
    never stored: the state the server reaches after a trace is the state it
    reaches after the trace with those events taken out. *)
Theorem ephemeral_events_leave_no_trace (st : State) (evs : list Event) :
  run st evs = run st (durable evs).
Proof.
  revert st. induction evs as [|ev evs IH]; intros st; [done |].
  unfold durable. simpl. destruct (is_ephemeral ev) eqn:He; simpl.
  - rewrite (step_ephemeral st ev He). apply IH.
  - apply IH.
Qed.

(** *** What is stored, and where *)

Lemma step_history_cases st ev chat :
  history chat (step st ev) = history chat st ∨
  ∃ sid md now rnd date,
    ev = MessageSend sid md now rnd date ∧
    chatId (senderId md) (recipientId md) = chat ∧
    history chat (step st ev) = history chat st ++ [stamp md now rnd date].
Proof.
  destruct (sockets st !! event_socket ev) as [s|] eqn:Hs.
  - destruct ev;
      try (left; unfold history; by rewrite other_event_messages).
    simpl in Hs. rewrite send_history by eauto. simpl.
    case_decide as Hc; [right; eauto 10 | left; by rewrite app_nil_r].
  - left. destruct ev;
      try (unfold history; by rewrite other_event_messages).
    unfold step. by rewrite handle_not_live.
Qed.

Lemma run_history_prefix st evs chat :
  history chat st `prefix_of` history chat (run st evs).
Proof.
  revert st. induction evs as [|ev evs IH]; intros st; [done |].
  simpl. etrans; [| apply IH].
  destruct (step_history_cases st ev chat) as [-> | (? & ? & ? & ? & ? & _ & _ & ->)];
    [done | by apply prefix_app_r].
Qed.

Lemma run_history_filed st evs :
  (∀ chat m, m ∈ history chat st →
     chatId (senderId (data m)) (recipientId (data m)) = chat ∧ stamped m) →
  ∀ chat m, m ∈ history chat (run st evs) →
    chatId (senderId (data m)) (recipientId (data m)) = chat ∧ stamped m.
Proof.
  revert st. induction evs as [|ev evs IH]; intros st Hst; [done |].
  simpl. apply IH. intros chat m.
  destruct (step_history_cases st ev chat)
    as [-> | (sid & md & now & rnd & date & _ & Hc & ->)]; [apply Hst |].
  rewrite elem_of_app, list_elem_of_singleton. intros [Hm | ->]; [by apply Hst |].
  split; [done | by exists now, rnd].
Qed.

(** X2. The stored histories only grow: whatever events follow, connects,
    disconnects and leaves included, the history a room had is a prefix of the
    history it has afterwards. Nothing is evicted or rewritten. *)
Theorem histories_only_grow (st : State) (evs : list Event) (chat : string) :
  history chat st `prefix_of` history chat (run st evs) ∧
  length (history chat st) ≤ length (history chat (run st evs)).
Proof.
  pose proof (run_history_prefix st evs chat) as H.
  split; [done | by apply prefix_length].
Qed.

(** X3. Every stored message is filed under the room key of its own sender
    and recipient, and carries an id of the form [msg_<clock>_<random>]:
    in any state the server reaches, a message found in the history of room
    [chat] has [chatId sender recipient = chat]. *)
Theorem messages_filed_under_own_room (evs : list Event) (chat : string) (m : Message) :
  m ∈ history chat (run init evs) →
  chatId (senderId (data m)) (recipientId (data m)) = chat ∧ stamped m.
Proof.
  apply run_history_filed. intros c m' Hm'. unfold history in Hm'. simpl in Hm'.
  rewrite lookup_empty in Hm'. by apply not_elem_of_nil in Hm'.
Qed.

(** The first message of the sample conversation, as an instance. *)
Lemma messages_filed_under_own_room_witness :
  chatId "u1" "u2" = "chat_u1_u2" ∧
  stamped (stamp (plain "u1" "u2" "hello") 1000 "k3j9x0q1z" 1000).
Proof.
  apply (messages_filed_under_own_room conversation "chat_u1_u2"
           (stamp (plain "u1" "u2" "hello") 1000 "k3j9x0q1z" 1000)).
  vm_compute. apply list_elem_of_here.
Defined.

(** *** Disconnecting *)

(** X4. When a connection registered for a user with a non-empty id closes,
    the user's active-room entry is deleted, also when another connection of
    that user is still live; the entries of all other users stay as they
    were, and so do the stored histories. *)
Theorem disconnect_clears_active_room (evs : list Event) (sid u : string) :
  let st := run init evs in
  registered st sid u → u ≠ "" →
  currentRoom (step st (Disconnect sid)) (Some u) = None ∧
  (∀ k, k ≠ Some u → currentRoom (step st (Disconnect sid)) k = currentRoom st k) ∧
  messages (step st (Disconnect sid)) = messages st.
Proof.
  intros st Hr Hu. pose proof (reachable_inv evs) as Hinv. fold st in Hinv.
  pose proof (inv_registered st Hinv sid u Hr) as Hget.
  destruct Hr as [s [Hs _]]. unfold currentRoom, step, handle. simpl. rewrite Hs.
  unfold on_disconnect. rewrite Hget.
  apply JsFacts.truthy_true in Hu. rewrite Hu. simpl.
  split; [apply lookup_delete_eq |]. split; [| done].
  intros k Hk. by rewrite lookup_delete_ne.
Qed.

(** Two sessions of [u1], the second having joined a room, as an
    instance: closing the first clears the room of the second. *)
Lemma disconnect_clears_active_room_witness :
  let st := run init (two_sessions ++ [ChatJoin "a2" "chat_u1_u2"]) in
  registered st "a1" "u1" ∧
  currentRoom st (Some "u1") = Some "chat_u1_u2" ∧
  currentRoom (step st (Disconnect "a1")) (Some "u1") = None.
Proof.
  assert (H : registered (run init (two_sessions ++ [ChatJoin "a2" "chat_u1_u2"])) "a1" "u1")
    by (eexists; split; by vm_compute).
  split; [exact H |]. split; [by vm_compute |].
  exact (proj1 (disconnect_clears_active_room
                  (two_sessions ++ [ChatJoin "a2" "chat_u1_u2"]) "a1" "u1" H
                  ltac:(discriminate))).
Defined.

(** *** Joining as a user *)

(** Who is in a room after [user:join]: who was, and the joining socket
    if the room is its personal one. *)
Lemma user_join_members st sid s uid room t :
  sockets st !! sid = Some s →
  t ∈ members room (handle st (UserJoin sid uid)).1 ↔
    t ∈ members room st ∨ (t = sid ∧ room = user_room uid).
Proof.
  intros Hs. unfold handle. simpl. rewrite Hs. rewrite !elem_of_members. simpl.
  destruct (decide (t = sid)) as [-> | Hne].
  - rewrite lookup_insert_eq, Hs. split.
    + intros (x & [= <-] & Hin). simpl in Hin.
      apply elem_of_union in Hin as [->%elem_of_singleton | Hin]; eauto.
    + intros [(x & [= <-] & Hin) | [_ ->]]; eexists; (split; [done |]); set_solver.
  - rewrite lookup_insert_ne by done. split; [by left |].
    by intros [H | [? _]].
Qed.

(** X5. When a live connection joins as user [uid], [user:online] for
    [uid] reaches the live connections that are not in the room named by the
    joining socket's id once the join is made: the joining connection is
    left out while it is in that room (it is from its connection on, until a
    [chat:leave] of that name) and so is every connection that joined a room
    of that name. While the room holds the joining connection alone, these
    are exactly the other live connections. The joining connection alone is
    sent the list of online users: in any state the server reaches that list
    holds [uid] and every user another live connection is registered for. *)
Theorem join_announces_and_lists (evs : list Event) (sid uid : string) :
  let st := run init evs in
  let r := handle st (UserJoin sid uid) in
  is_Some (sockets st !! sid) →
  (∀ t, t ∈ receivers r.1 "user:online" r.2 ↔
     is_Some (sockets st !! t) ∧ (t ∉ members sid st) ∧
     ¬ (t = sid ∧ user_room uid = sid)) ∧
  (members sid st = {[sid]} →
   receivers r.1 "user:online" r.2 = dom (sockets st) ∖ {[sid]}) ∧
  receivers r.1 "users:online" r.2 = {[sid]} ∧
  ∃ us, online_list r.2 = Some us ∧ uid ∈ us ∧
        ∀ t u, t ≠ sid → registered st t u → u ∈ us.
Proof.
  intros st r [s Hs]. pose proof (reachable_inv evs) as [Hnd He Hg]. fold st in Hnd, He, Hg.
  assert (Hon : ∀ t, t ∈ receivers r.1 "user:online" r.2 ↔
            is_Some (sockets st !! t) ∧ (t ∉ members sid st) ∧
            ¬ (t = sid ∧ user_room uid = sid)).
  { intros t.
    pose proof (user_join_members st sid s uid sid t Hs) as Hm. fold r in Hm.
    assert (Hr : receivers r.1 "user:online" r.2 = dom (sockets r.1) ∖ members sid r.1).
    { subst r. unfold handle. simpl. rewrite Hs. unfold receivers. simpl.
      by rewrite union_empty_r_L. }
    assert (Hd : dom (sockets r.1) = dom (sockets st)).
    { subst r. unfold handle. simpl. rewrite Hs. simpl. rewrite dom_insert_L.
      apply (elem_of_dom_2 (sockets st)) in Hs. set_solver. }
    rewrite Hr, Hd, elem_of_difference, Hm, elem_of_dom.
    split.
    - intros [Hl Hn]. split; [done |]. split; [tauto |].
      intros [-> Hu]. apply Hn. by right.
    - intros (Hl & Hn & Hp). split; [done |]. intros [Hin | [-> Hu]]; [done |].
      by apply Hp. }
  split; [exact Hon |]. split; [| split].
  - intros Hown. apply set_eq. intros t. rewrite Hon, Hown.
    rewrite elem_of_difference, elem_of_dom, elem_of_singleton.
    split; [tauto |]. intros [Hl Hne]. split; [done |]. split; [done |]. tauto.
  - subst r. unfold handle. simpl. rewrite Hs. unfold receivers. simpl. set_solver.
  - subst r. unfold handle. simpl. rewrite Hs. unfold online_list. simpl.
    eexists. split; [done |].
    pose proof (omap_set_NoDup (connectedUsers st) sid uid Hnd) as Hnd'.
    split.
    + apply (elem_of_omap_values _ _ Hnd'). exists sid. apply omap_get_set_eq.
    + intros t u Hne Hr. apply (elem_of_omap_values _ _ Hnd'). exists t.
      rewrite omap_get_set_ne by done. by apply Hg.
Qed.

(** A third user joining while [u1] and [u2] are online, as an instance:
    the three connections that were there are told. *)
Lemma join_announces_and_lists_witness :
  let st := run init (two_sessions ++ [Connect "c"]) in
  let r := handle st (UserJoin "c" "u3") in
  is_Some (sockets st !! "c") ∧
  members "c" st = {["c"]} ∧
  receivers r.1 "user:online" r.2 = dom (sockets st) ∖ {["c"]} ∧
  online_list r.2 = Some ["u1"; "u1"; "u2"; "u3"].
Proof.
  assert (H : is_Some (sockets (run init (two_sessions ++ [Connect "c"])) !! "c"))
    by (vm_compute; eauto).
  assert (Hown : members "c" (run init (two_sessions ++ [Connect "c"])) = {["c"]})
    by (by vm_compute).
  split; [exact H |]. split; [exact Hown |].
  destruct (join_announces_and_lists (two_sessions ++ [Connect "c"]) "c" "u3" H)
    as (_ & Hothers & _ & us & Hus & _).
  split; [exact (Hothers Hown) | by vm_compute].
Defined.

(** A connection that left the room of its own id is told of its own
    join, and one that joined a room of that name is not told. *)
Example join_reaches_the_joiner_and_skips_a_guest :
  let st := run init [Connect "a"; Connect "b"; Connect "c";
                      ChatLeave "a" "a"; ChatJoin "b" "a"] in
  let r := handle st (UserJoin "a" "u1") in
  "a" ∈ receivers r.1 "user:online" r.2 ∧
  ("b" ∉ receivers r.1 "user:online" r.2) ∧
  "c" ∈ receivers r.1 "user:online" r.2.
Proof.
  split; [| split]; apply (bool_decide_unpack _); by vm_compute.
Qed.

(** *** Room keys *)

Lemma chatId_pair (u1 u2 : string) :
  ∃ a b, chatId u1 u2 = "chat_" +:+ a +:+ "_" +:+ b ∧
         ((a = u1 ∧ b = u2) ∨ (a = u2 ∧ b = u1)).
Proof.
  unfold chatId. rewrite JsFacts.sort_pair.
  destruct (String.ltb u2 u1); eexists _, _; (split; [reflexivity |]); eauto.
Qed.

(** X6. For user ids that contain no underscore the room key determines
    the pair of users: if [chatId u1 u2 = chatId v1 v2] then the two pairs are
    the same up to order. *)
Theorem chatId_injective_without_underscore (u1 u2 v1 v2 : string) :
  has_underscore u1 = false → has_underscore u2 = false →
  has_underscore v1 = false → has_underscore v2 = false →
  chatId u1 u2 = chatId v1 v2 →
  (u1 = v1 ∧ u2 = v2) ∨ (u1 = v2 ∧ u2 = v1).
Proof.
  intros Hu1 Hu2 Hv1 Hv2.
  destruct (chatId_pair u1 u2) as (a & b & -> & Hab).
  destruct (chatId_pair v1 v2) as (c & d & -> & Hcd).
  intros [= Heq].
  assert (Ha : has_underscore a = false) by (destruct Hab as [[-> _] | [-> _]]; done).
  assert (Hc : has_underscore c = false) by (destruct Hcd as [[-> _] | [-> _]]; done).
  destruct (JsFacts.split_at_separator a b c d Ha Hc Heq) as [-> ->].
  destruct Hab as [[-> ->] | [-> ->]], Hcd as [[-> ->] | [-> ->]]; eauto.
Qed.

Lemma chatId_injective_without_underscore_witness :
  ("u1" = "u2" ∧ "u2" = "u1") ∨ ("u1" = "u1" ∧ "u2" = "u2").
Proof.
  exact (chatId_injective_without_underscore "u1" "u2" "u2" "u1"
           eq_refl eq_refl eq_refl eq_refl eq_refl).
Defined.

(** X7. With underscores in user ids two different pairs of users can share
    a room: for ids [a_b] and [c] on one side and [a] and [b_c] on the other
    (each pair in sorted order), a message sent from [a_b] to [c] is stored in
    the history of the room of [a] and [b_c]. *)
Theorem underscore_ids_share_a_room (st : State) (sid : string) (md : MessageData)
    (now : N) (rnd : string) (date : N) (a b c : string) :
  is_Some (sockets st !! sid) →
  senderId md = a +:+ "_" +:+ b → recipientId md = c →
  String.ltb c (a +:+ "_" +:+ b) = false →
  String.ltb (b +:+ "_" +:+ c) a = false →
  chatId (a +:+ "_" +:+ b) c = chatId a (b +:+ "_" +:+ c) ∧
  stamp md now rnd date ∈
    history (chatId a (b +:+ "_" +:+ c)) (step st (MessageSend sid md now rnd date)).
Proof.
  intros Hlive Hs Hr H1 H2.
  assert (Heq : chatId (a +:+ "_" +:+ b) c = chatId a (b +:+ "_" +:+ c)).
  { rewrite (chatId_sorted _ _ H1), (chatId_sorted _ _ H2).
    f_equal. by rewrite !JsFacts.append_assoc. }
  split; [done |].
  rewrite send_history by done. simpl. rewrite Hs, Hr, Heq, decide_True by done.
  set_solver.
Qed.

Lemma underscore_ids_share_a_room_witness :
  let st := run init [Connect "s"] in
  chatId "a_b" "c" = chatId "a" "b_c" ∧
  stamp (plain "a_b" "c" "hello") 1000 "k3j9x0q1z" 1000 ∈
    history (chatId "a" "b_c")
      (step st (MessageSend "s" (plain "a_b" "c" "hello") 1000 "k3j9x0q1z" 1000)).
Proof.
  apply (underscore_ids_share_a_room (run init [Connect "s"]) "s"
           (plain "a_b" "c" "hello") 1000 "k3j9x0q1z" 1000 "a" "b" "c");
    try reflexivity.
  vm_compute. eauto.
Defined.


End RelayLaws.

(** ** Configuration: proofs *)

Module ConfigProofs.

Import Translation Config TranslationProofs.

Lemma truthy_cases s : (Js.truthy s = true ∧ s ≠ "") ∨ (Js.truthy s = false ∧ s = "").
Proof.
  destruct (Js.truthy s) eqn:H; [left | right]; (split; [done |]).
  - by apply JsFacts.truthy_true.
  - by apply JsFacts.truthy_false.
Qed.

Lemma missing_key_iff (w : World) :
  ("NEXT_PUBLIC_OPENAI_API_KEY" ∈ missingKeys (validateConfig w) ↔
     openaiApiKey (config w) = "") ∧
  ("NEXT_PUBLIC_GEMINI_API_KEY" ∈ missingKeys (validateConfig w) ↔
     geminiApiKey (config w) = "") ∧
  ("NEXT_PUBLIC_CLAUDE_API_KEY" ∈ missingKeys (validateConfig w) ↔
     claudeApiKey (config w) = "").
Proof.
  unfold validateConfig, push_if.
  destruct (truthy_cases (openaiApiKey (config w))) as [[-> Ho] | [-> Ho]],
           (truthy_cases (geminiApiKey (config w))) as [[-> Hg] | [-> Hg]],
           (truthy_cases (claudeApiKey (config w))) as [[-> Hc] | [-> Hc]];
    simpl; repeat split; intros; try done;
    repeat match goal with
    | H : _ ∈ [] |- _ => by apply not_elem_of_nil in H
    | H : _ ∈ _ :: _ |- _ => apply elem_of_cons in H as [H | H]; [discriminate |]
    end;
    set_solver.
Qed.

(** X8. [validateConfig] reports exactly the provider keys that are empty
    in the [config] object: the configuration is valid if and only if the
    three keys are non-empty, and the name of a key's environment variable is
    listed, once, if and only if that key is empty. *)
Theorem validateConfig_reports_empty_keys (w : World) :
  (isValid (validateConfig w) = true ↔
     openaiApiKey (config w) ≠ "" ∧ geminiApiKey (config w) ≠ "" ∧
     claudeApiKey (config w) ≠ "") ∧
  ("NEXT_PUBLIC_OPENAI_API_KEY" ∈ missingKeys (validateConfig w) ↔
     openaiApiKey (config w) = "") ∧
  ("NEXT_PUBLIC_GEMINI_API_KEY" ∈ missingKeys (validateConfig w) ↔
     geminiApiKey (config w) = "") ∧
  ("NEXT_PUBLIC_CLAUDE_API_KEY" ∈ missingKeys (validateConfig w) ↔
     claudeApiKey (config w) = "") ∧
  NoDup (missingKeys (validateConfig w)).
Proof.
  split; [| split; [| split; [| split]]]; try apply missing_key_iff.
  - unfold validateConfig, push_if.
    destruct (truthy_cases (openaiApiKey (config w))) as [[-> Ho] | [-> Ho]],
             (truthy_cases (geminiApiKey (config w))) as [[-> Hg] | [-> Hg]],
             (truthy_cases (claudeApiKey (config w))) as [[-> Hc] | [-> Hc]];
      simpl; naive_solver.
  - unfold validateConfig, push_if.
    destruct (Js.truthy (openaiApiKey (config w))),
             (Js.truthy (geminiApiKey (config w))),
             (Js.truthy (claudeApiKey (config w)));
      simpl; repeat constructor; set_solver.
Qed.

(** X9. In the world right after loading, a provider key is reported
    missing exactly when its environment variable is not set or is set to the
    empty string; the SMTP port is the variable's value when set and
    non-empty, and 587 otherwise. *)
Theorem environment_defaults (env : string → option string)
    (network : nat → Request → FetchOutcome) :
  let w := loaded env network in
  ("NEXT_PUBLIC_OPENAI_API_KEY" ∈ missingKeys (validateConfig w) ↔
     env "NEXT_PUBLIC_OPENAI_API_KEY" = None ∨ env "NEXT_PUBLIC_OPENAI_API_KEY" = Some "") ∧
  ("NEXT_PUBLIC_GEMINI_API_KEY" ∈ missingKeys (validateConfig w) ↔
     env "NEXT_PUBLIC_GEMINI_API_KEY" = None ∨ env "NEXT_PUBLIC_GEMINI_API_KEY" = Some "") ∧
  ("NEXT_PUBLIC_CLAUDE_API_KEY" ∈ missingKeys (validateConfig w) ↔
     env "NEXT_PUBLIC_CLAUDE_API_KEY" = None ∨ env "NEXT_PUBLIC_CLAUDE_API_KEY" = Some "") ∧
  port (smtpConfig (effective w)) =
    match env "SMTP_PORT" with
    | Some p => if Js.truthy p then p else "587"
    | None => "587"
    end ∧
  effective w = config_of_env env.
Proof.
  intros w.
  assert (Hor : ∀ a, or_else a "" = "" ↔ a = None ∨ a = Some "").
  { intros [s|]; simpl; [| naive_solver].
    destruct (truthy_cases s) as [[-> Hs] | [-> Hs]]; naive_solver. }
  destruct (missing_key_iff w) as (Ho & Hg & Hc).
  rewrite Ho, Hg, Hc. subst w. simpl. rewrite !Hor. done.
Qed.

(** *** Runtime configuration *)

(** X10. Keys given to [updateRuntimeConfig] take effect for callers of
    [getRuntimeConfig], key by key, and keys it is not given keep the value
    they had; [validateConfig] does not see the update at all, so a key
    supplied only at runtime is still reported missing. *)
Theorem runtime_update_seen_by_calls_only (newConfig : PartialApiConfig) (w : World) :
  let w' := (updateRuntimeConfig (E := TranslationError) newConfig w).2 in
  openaiApiKey (effective w') =
    default (openaiApiKey (effective w)) (p_openaiApiKey newConfig) ∧
  geminiApiKey (effective w') =
    default (geminiApiKey (effective w)) (p_geminiApiKey newConfig) ∧
  claudeApiKey (effective w') =
    default (claudeApiKey (effective w)) (p_claudeApiKey newConfig) ∧
  twilioConfig (effective w') =
    default (twilioConfig (effective w)) (p_twilioConfig newConfig) ∧
  smtpConfig (effective w') =
    default (smtpConfig (effective w)) (p_smtpConfig newConfig) ∧
  validateConfig w' = validateConfig w ∧
  sent w' = sent w.
Proof.
  unfold effective. simpl.
  destruct newConfig as [[?|] [?|] [?|] [?|] [?|]]; simpl; done.
Qed.

Lemma override_assoc {A} (a b c : option A) :
  override (override a b) c = override a (override b c).
Proof. by destruct c. Qed.

Lemma spread_partial_assoc a b c :
  spread_partial (spread_partial a b) c = spread_partial a (spread_partial b c).
Proof. unfold spread_partial. simpl. by rewrite !override_assoc. Qed.

(** X11. Two runtime updates in a row are one update with the second laid
    over the first, and an update with no key changes nothing the configuration
    readers see. *)
Theorem runtime_updates_compose (p q : PartialApiConfig) (w : World) :
  (updateRuntimeConfig (E := TranslationError) p ≫=
     λ _, updateRuntimeConfig q) w =
    updateRuntimeConfig (spread_partial p q) w ∧
  effective (updateRuntimeConfig (E := TranslationError) no_override w).2 = effective w.
Proof.
  split.
  - unfold mbind, M_bind, bind, updateRuntimeConfig. simpl.
    by rewrite spread_partial_assoc.
  - unfold effective. simpl. by destruct (runtimeConfig w) as [[?|] [?|] [?|] [?|] [?|]].
Qed.

Lemma openai_headers text targetLang sourceLang :
  ∃ request,
    translateTextOpenAI text targetLang sourceLang =
      provider_call openaiApiKey "OpenAI API key not configured" request "OpenAI" trim
        (λ t, {| translatedText := t; sourceLanguage := sourceLang;
                 targetLanguage := targetLang; confidence := Some 0.95%Q |})
        (λ e, {| error := "Translation failed"; code := "OPENAI_ERROR";
                 details := Some (error_details e) |})
    ∧ ∀ c, headers (request c) =
             [("Authorization", "Bearer " +:+ openaiApiKey c);
              ("Content-Type", "application/json")].
Proof. eexists. split; [reflexivity | done]. Qed.

(** X12. The OpenAI key set at runtime is the one a translation uses: after
    an update that gives a non-empty key, [translateTextOpenAI] makes one
    request whose Authorization header carries that key, whatever the
    environment gave; after an update that gives the empty key it fails as not
    configured and makes no request. *)
Theorem runtime_key_is_used (newConfig : PartialApiConfig) (k : string) (w : World)
    (text : string) (targetLang : SupportedLanguage)
    (sourceLang : option SupportedLanguage) :
  p_openaiApiKey newConfig = Some k →
  let w' := (updateRuntimeConfig (E := TranslationError) newConfig w).2 in
  let r := translateTextOpenAI text targetLang sourceLang w' in
  if Js.truthy k then
    headers <$> first_request w' r.2 =
      Some [("Authorization", "Bearer " +:+ k); ("Content-Type", "application/json")]
    ∧ length (sent r.2) = S (length (sent w))
  else
    r = (inl {| error := "Translation failed"; code := "OPENAI_ERROR";
                details := Some "OpenAI API key not configured" |}, w').
Proof.
  intros Hk w' r.
  assert (Hkey : openaiApiKey (spread (config w') (runtimeConfig w')) = k)
    by (subst w'; simpl; by rewrite Hk).
  destruct (Js.truthy k) eqn:Ht.
  - subst r. unfold first_request.
    destruct (openai_headers text targetLang sourceLang) as [req [-> Hh]].
    rewrite provider_call_sent. cbv zeta. rewrite Hkey, Ht.
    rewrite lookup_app_r, Nat.sub_diag by done. simpl.
    rewrite Hh, length_app, Nat.add_1_r.
    change (spread (config w) (spread_partial (runtimeConfig w) newConfig))
      with (spread (config w') (runtimeConfig w')).
    by rewrite Hkey.
  - apply JsFacts.truthy_false in Ht. subst k.
    by apply openai_missing_key.
Qed.

(** The environment has no key at all and one is set at runtime, as an
    instance. *)
Lemma runtime_key_is_used_witness :
  let w' := (updateRuntimeConfig (E := TranslationError)
               {| p_openaiApiKey := Some "sk-9"; p_geminiApiKey := None;
                  p_claudeApiKey := None; p_twilioConfig := None;
                  p_smtpConfig := None |} nothing_configured).2 in
  let r := translateTextOpenAI "hello" "es" None w' in
  "NEXT_PUBLIC_OPENAI_API_KEY" ∈ missingKeys (validateConfig w') ∧
  headers <$> first_request w' r.2 =
    Some [("Authorization", "Bearer sk-9"); ("Content-Type", "application/json")]
  ∧ length (sent r.2) = 1.
Proof.
  split; [vm_compute; set_solver |].
  exact (runtime_key_is_used
           {| p_openaiApiKey := Some "sk-9"; p_geminiApiKey := None;
              p_claudeApiKey := None; p_twilioConfig := None;
              p_smtpConfig := None |} "sk-9" nothing_configured "hello" "es" None
           eq_refl).
Defined.


End ConfigProofs.

(** ** Language detection: proofs *)

Module DetectionProofs.

Import Translation Config LanguageDetection TranslationProofs.

Lemma to_lower_unit_idem c : to_lower_unit (to_lower_unit c) = to_lower_unit c.
Proof. destruct c as [[] [] [] [] [] [] [] []]; reflexivity. Qed.

Lemma toLowerCase_idem s : toLowerCase (toLowerCase s) = toLowerCase s.
Proof.
  induction s as [|c s IH]; simpl; [done |]. by rewrite to_lower_unit_idem, IH.
Qed.

(** What [detectLanguage] comes to, case by case. *)
Lemma detectLanguage_cases {E} text w :
  detectLanguage (E := E) text w =
    let c := spread (config w) (runtimeConfig w) in
    let w' := {| config := config w; runtimeConfig := runtimeConfig w;
                 network := network w;
                 sent := sent w ++ [detection_request text (openaiApiKey c)] |} in
    if Js.truthy (openaiApiKey c) then
      match detection_outcome text w with
      | FetchRejects _ => (inr None, w')
      | FetchResolves resp =>
          if ok resp then
            match json resp with
            | PathText s =>
                (inr (if isValidLanguage (toLowerCase (trim s))
                      then Some (toLowerCase (trim s)) else None), w')
            | _ => (inr None, w')
            end
          else (inr None, w')
      end
    else (inr None, w).
Proof.
  unfold detectLanguage, detection_outcome, try_catch, mbind, M_bind, bind,
    getRuntimeConfig, fetch. simpl.
  destruct (Js.truthy _); simpl; [| done].
  destruct (network w _ _) as [e | resp]; simpl; [done |].
  destruct (ok resp); simpl; [| done].
  by destruct (json resp).
Qed.

(** X13. [detectLanguage] never throws. It makes no request when the OpenAI
    key is empty and one request, to the OpenAI address, otherwise; it leaves
    the configuration alone. *)
Theorem detectLanguage_never_throws (E : Type) (text : string) (w : World) :
  let r := detectLanguage (E := E) text w in
  (∃ result, r.1 = inr result) ∧
  config r.2 = config w ∧ runtimeConfig r.2 = runtimeConfig w ∧
  sent r.2 =
    if Js.truthy (openaiApiKey (effective w))
    then sent w ++ [detection_request text (openaiApiKey (effective w))]
    else sent w.
Proof.
  intros r. subst r. rewrite detectLanguage_cases. unfold effective. cbv zeta.
  destruct (Js.truthy _); [| by eauto].
  destruct (detection_outcome text w) as [e | resp]; [by eauto |].
  destruct (ok resp); [| by eauto].
  destruct (json resp); by eauto.
Qed.

(** X14. [detectLanguage] returns a language exactly when the OpenAI key is
    non-empty, the request is answered with an ok response whose content is a
    string, and that string, trimmed and in lower case, passes
    [isValidLanguage]; the language returned is that string. In every other
    case, a refused request and a response that is not ok included, it
    returns [null]. *)
Theorem detectLanguage_some_iff (E : Type) (text : string) (w : World) (code : string) :
  (detectLanguage (E := E) text w).1 = inr (Some code) ↔
    openaiApiKey (effective w) ≠ "" ∧
    ∃ resp s, detection_outcome text w = FetchResolves resp ∧
              ok resp = true ∧ json resp = PathText s ∧
              code = toLowerCase (trim s) ∧ isValidLanguage code = true.
Proof.
  rewrite detectLanguage_cases. unfold effective. cbv zeta.
  rewrite <- JsFacts.truthy_true.
  destruct (Js.truthy _); [| by split; [| intros [? _]]].
  destruct (detection_outcome text w) as [e | resp];
    [by split; [| intros (_ & ? & ? & ? & _)] |].
  destruct (ok resp) eqn:Hok; simpl;
    [| split; [done | intros (_ & ? & ? & [= <-] & ? & _); congruence]].
  destruct (json resp) as [e | e | | s] eqn:Hj; simpl;
    try (split; [done | intros (_ & ? & ? & [= <-] & _ & ? & _); congruence]).
  destruct (isValidLanguage (toLowerCase (trim s))) eqn:Hv; simpl.
  - split.
    + intros [= <-]. split; [done |]. by exists resp, s.
    + intros (_ & resp' & s' & [= <-] & _ & Hs & -> & _).
      rewrite Hj in Hs. by injection Hs as <-.
  - split; [done |].
    intros (_ & resp' & s' & [= <-] & _ & Hs & -> & Hv').
    rewrite Hj in Hs. injection Hs as <-. congruence.
Qed.

Lemma lowercase_prototype_names c :
  c ∈ object_prototype → toLowerCase c = c → c = "constructor" ∨ c = "__proto__".
Proof.
  unfold object_prototype. rewrite !elem_of_cons, elem_of_nil.
  intros H Hl. destruct_or!; subst; try discriminate Hl; try done; eauto.
Qed.

(** X15. A language returned by [detectLanguage] is a key of
    [SUPPORTED_LANGUAGES], or one of the two property names the table
    inherits that are in lower case, [constructor] and [__proto__]: the [in]
    test of [isValidLanguage] accepts inherited properties. *)
Theorem detectLanguage_range (E : Type) (text : string) (w : World) (code : string) :
  (detectLanguage (E := E) text w).1 = inr (Some code) →
  code ∈ SUPPORTED_LANGUAGES ∨ code = "constructor" ∨ code = "__proto__".
Proof.
  rewrite detectLanguage_cases. cbv zeta.
  destruct (Js.truthy _); [| done].
  destruct (detection_outcome text w) as [e | resp]; [done |].
  destruct (ok resp); [| done].
  destruct (json resp) as [e | e | | s]; try done.
  destruct (isValidLanguage (toLowerCase (trim s))) eqn:Hv; [| done].
  simpl. intros [= <-]. unfold isValidLanguage in Hv.
  apply orb_true_iff in Hv as [Hv | Hv]; apply bool_decide_eq_true in Hv.
  - by left.
  - right. apply lowercase_prototype_names; [done | apply toLowerCase_idem].
Qed.

(** OpenAI answering with the name of an inherited property, as an
    instance. *)
Lemma detectLanguage_range_witness :
  (detectLanguage (E := TranslationError) "hello" answers_constructor).1 =
    inr (Some "constructor")
  ∧ ("constructor" ∈ SUPPORTED_LANGUAGES ∨ "constructor" = "constructor"
     ∨ "constructor" = "__proto__").
Proof.
  assert (H : (detectLanguage (E := TranslationError) "hello" answers_constructor).1 =
                inr (Some "constructor")) by (by vm_compute).
  split; [exact H |].
  exact (detectLanguage_range TranslationError "hello" answers_constructor
           "constructor" H).
Defined.

(** X16. For codes of two characters [isValidLanguage] is exact: such a
    code is accepted if and only if it is one of the keys of
    [SUPPORTED_LANGUAGES]; and every key of the table has two characters and is
    accepted. *)
Theorem isValidLanguage_exact_on_two_letters (code : string) :
  (String.length code = 2 →
     isValidLanguage code = true ↔ code ∈ SUPPORTED_LANGUAGES) ∧
  (code ∈ SUPPORTED_LANGUAGES →
     String.length code = 2 ∧ isValidLanguage code = true).
Proof.
  split.
  - intros Hlen. unfold isValidLanguage. rewrite orb_true_iff, !bool_decide_eq_true.
    split; [| by left]. intros [H | H]; [done |].
    exfalso. revert H Hlen. unfold object_prototype.
    rewrite !elem_of_cons, elem_of_nil. intros H. destruct_or!; by subst.
  - intros H. split.
    + revert H. unfold SUPPORTED_LANGUAGES. rewrite !elem_of_cons, elem_of_nil.
      intros H. destruct_or!; by subst.
    + unfold isValidLanguage. by rewrite bool_decide_eq_true_2.
Qed.

End DetectionProofs.

(** ** The translation service: further laws *)

Module TranslationLaws.

Import Translation Providers TranslationProofs.

(** *** One provider call, case by case *)

Lemma read_translation_pure provider post resp w :
  read_translation provider post resp w =
    ((read_translation provider post resp w).1, w).
Proof.
  unfold read_translation. destruct (negb (ok resp)); [done |].
  destruct (json resp) as [e | e | | s]; try done.
  by destruct (Js.truthy (post s)).
Qed.

Lemma provider_call_run key missing request provider post result failure w :
  provider_call key missing request provider post result failure w =
    let c := spread (config w) (runtimeConfig w) in
    if Js.truthy (key c) then
      match network w (length (sent w)) (request c) with
      | FetchRejects e => (inl (failure e), after_request w (request c))
      | FetchResolves resp =>
          match (read_translation provider post resp w).1 with
          | inl e => (inl (failure e), after_request w (request c))
          | inr t => (inr (result t), after_request w (request c))
          end
      end
    else (inl (failure (JsError missing)), w).
Proof.
  unfold provider_call, try_catch, mbind, M_bind, bind, getRuntimeConfig, fetch,
    after_request. simpl.
  destruct (Js.truthy _); simpl; [| done].
  destruct (network w _ _) as [e | resp]; simpl; [done |].
  rewrite read_translation_pure.
  assert (Hw : ∀ w1 w2, (read_translation provider post resp w1).1 =
                        (read_translation provider post resp w2).1).
  { intros w1 w2. unfold read_translation. destruct (negb (ok resp)); [done |].
    destruct (json resp) as [e | e | | s]; try done.
    by destruct (Js.truthy (post s)). }
  rewrite (Hw _ w). by destruct (read_translation provider post resp w).1.
Qed.

(** The text a response yields, or the error reading it throws. *)
Lemma read_translation_cases provider post resp w :
  (read_translation provider post resp w).1 =
    if ok resp then
      match json resp with
      | BodyRejects e | PathThrows e => inl e
      | PathNullish => inl (JsError ("No translation received from " +:+ provider))
      | PathText s =>
          if Js.truthy (post s) then inr (post s)
          else inl (JsError ("No translation received from " +:+ provider))
      end
    else inl (JsError (provider +:+ " API error: " +:+ pretty (status resp)
                         +:+ " " +:+ statusText resp)).
Proof.
  unfold read_translation. destruct (ok resp); simpl; [| done].
  destruct (json resp) as [e | e | | s]; try done.
  by destruct (Js.truthy (post s)).
Qed.

(** The call a message class selects is the provider call with the
    entries of that class. *)
Lemma selected_shape mt text targetLang :
  ∃ request,
    selected mt text targetLang =
      provider_call (provider_key mt) (provider_name mt +:+ " API key not configured")
        request (provider_name mt) (provider_post mt) (provider_result mt targetLang)
        (λ e, provider_failure mt (error_details e))
    ∧ ∀ c, url (request c) = provider_url mt c.
Proof. destruct mt; eexists; (split; [reflexivity | done]). Qed.

Lemma selected_run mt text targetLang w :
  let c := spread (config w) (runtimeConfig w) in
  ∃ req, url req = provider_url mt c ∧
    selected mt text targetLang w =
      if Js.truthy (provider_key mt c) then
        match network w (length (sent w)) req with
        | FetchRejects e =>
            (inl (provider_failure mt (error_details e)), after_request w req)
        | FetchResolves resp =>
            match (read_translation (provider_name mt) (provider_post mt) resp w).1 with
            | inl e => (inl (provider_failure mt (error_details e)), after_request w req)
            | inr t => (inr (provider_result mt targetLang t), after_request w req)
            end
        end
      else (inl (provider_failure mt (provider_name mt +:+ " API key not configured")), w).
Proof.
  intros c. destruct (selected_shape mt text targetLang) as [request [-> Hurl]].
  exists (request c). split; [apply Hurl |]. by rewrite provider_call_run.
Qed.

(** *** How a provider call fails *)

(** X17. A provider whose key is empty is never called: the call fails at
    once with the provider's error, whose details say the key is not
    configured, and the world, the request log included, is as before. *)
Theorem no_request_without_key (mt : MessageType) (text : string)
    (targetLang : SupportedLanguage) (w : World) :
  provider_key mt (spread (config w) (runtimeConfig w)) = "" →
  selected mt text targetLang w =
    (inl (provider_failure mt (provider_name mt +:+ " API key not configured")), w).
Proof.
  intros Hk. destruct (selected_run mt text targetLang w) as (req & _ & ->).
  apply JsFacts.truthy_false in Hk. by rewrite Hk.
Qed.

(** The Claude call with no key at all, as an instance. *)
Lemma no_request_without_key_witness :
  selected formal "dear sir" "es" nothing_configured =
    (inl {| error := "Formal translation failed"; code := "CLAUDE_ERROR";
            details := Some "Claude API key not configured" |}, nothing_configured).
Proof.
  exact (no_request_without_key formal "dear sir" "es" nothing_configured eq_refl).
Defined.

(** X18. With its key configured a provider call makes its request, and
    when the call fails the details tell the cause: the message of the error
    [fetch] was refused with (or [Unknown error] when what was thrown is no
    [Error]), and for a response that is not ok the provider's name, the status
    and the status text. *)
Theorem failure_details_tell_the_cause (mt : MessageType) (text : string)
    (targetLang : SupportedLanguage) (w : World) (o : FetchOutcome) :
  let c := spread (config w) (runtimeConfig w) in
  let r := selected mt text targetLang w in
  provider_key mt c ≠ "" →
  (∀ req, url req = provider_url mt c → network w (length (sent w)) req = o) →
  url <$> first_request w r.2 = Some (provider_url mt c) ∧
  match o with
  | FetchRejects (JsError message) => r.1 = inl (provider_failure mt message)
  | FetchRejects JsOther => r.1 = inl (provider_failure mt "Unknown error")
  | FetchResolves resp =>
      ok resp = false →
      r.1 = inl (provider_failure mt
                   (provider_name mt +:+ " API error: " +:+ pretty (status resp)
                      +:+ " " +:+ statusText resp))
  end.
Proof.
  intros c r Hk Hnet. subst r c.
  destruct (selected_run mt text targetLang w) as (req & Hurl & ->).
  apply JsFacts.truthy_true in Hk. rewrite Hk, (Hnet req Hurl).
  split.
  - unfold first_request.
    destruct o as [e | resp]; [| destruct (read_translation _ _ resp w).1]; simpl;
      by rewrite lookup_app_r, Nat.sub_diag, <- Hurl by done.
  - destruct o as [[message |] | resp]; [done | done |].
    intros Hok. rewrite read_translation_cases, Hok. done.
Qed.

(** A rate-limited Claude call, as an instance. *)
Lemma failure_details_tell_the_cause_witness :
  (selected formal "dear sir" "es" rate_limited).1 =
    inl {| error := "Formal translation failed"; code := "CLAUDE_ERROR";
           details := Some "Claude API error: 429 Too Many Requests" |}.
Proof.
  exact (proj2 (failure_details_tell_the_cause formal "dear sir" "es" rate_limited
                  (FetchResolves {| ok := false; status := 429;
                                    statusText := "Too Many Requests";
                                    json := PathNullish |})
                  ltac:(discriminate) (λ _ _, eq_refl)) eq_refl).
Defined.

(** X19. What a provider call makes of an ok response whose content is the
    string [s]: the OpenAI call trims it, the two others take it as it is; the
    call succeeds with that text, the requested target language and the
    provider's confidence when the text is not empty, and fails with [No
    translation received] when it is. So a content of white space only is a
    failure for OpenAI and a translation for Gemini and Claude. *)
Theorem content_handling (mt : MessageType) (text : string)
    (targetLang : SupportedLanguage) (w : World) (resp : Response) (s : string) :
  let c := spread (config w) (runtimeConfig w) in
  let r := selected mt text targetLang w in
  let t := provider_post mt s in
  provider_key mt c ≠ "" →
  (∀ req, url req = provider_url mt c →
     network w (length (sent w)) req = FetchResolves resp) →
  ok resp = true → json resp = PathText s →
  r.1 = if Js.truthy t
        then inr (provider_result mt targetLang t)
        else inl (provider_failure mt ("No translation received from " +:+ provider_name mt)).
Proof.
  intros c r t Hk Hnet Hok Hj. subst r t c.
  destruct (selected_run mt text targetLang w) as (req & Hurl & ->).
  apply JsFacts.truthy_true in Hk. rewrite Hk, (Hnet req Hurl).
  rewrite read_translation_cases, Hok, Hj.
  by destruct (Js.truthy (provider_post mt s)).
Qed.

(** The same blank answer, to OpenAI and to Gemini, as an instance. *)
Lemma content_handling_witness :
  (selected casual "hello" "es" answers_blank).1 =
    inl {| error := "Translation failed"; code := "OPENAI_ERROR";
           details := Some "No translation received from OpenAI" |}
  ∧ (selected document "hello" "es" answers_blank).1 =
      inr {| translatedText := "  "; sourceLanguage := None;
             targetLanguage := "es"; confidence := Some 0.92%Q |}.
Proof.
  split.
  - exact (content_handling casual "hello" "es" answers_blank
             {| ok := true; status := 200; statusText := "OK"; json := PathText "  " |}
             "  " ltac:(discriminate) (λ _ _, eq_refl) eq_refl eq_refl).
  - exact (content_handling document "hello" "es" answers_blank
             {| ok := true; status := 200; statusText := "OK"; json := PathText "  " |}
             "  " ltac:(discriminate) (λ _ _, eq_refl) eq_refl eq_refl).
Defined.


(** *** Trimming *)

Lemma append_nil_r (s : string) : s +:+ "" = s.
Proof.
  induction s as [|c s IH]; [done |]. rewrite JsFacts.append_cons. by f_equal.
Qed.

Lemma rev_app_append (s acc : string) :
  String.rev_app s acc = String.rev s +:+ acc.
Proof.
  revert acc. induction s as [|c s IH]; intros acc; [done |].
  unfold String.rev. simpl. rewrite (IH (String c acc)), (IH (String c "")).
  by rewrite JsFacts.append_assoc.
Qed.

Lemma rev_append (x y : string) :
  String.rev (x +:+ y) = String.rev y +:+ String.rev x.
Proof.
  induction x as [|c x IH].
  - by rewrite JsFacts.append_nil, append_nil_r.
  - rewrite JsFacts.append_cons. unfold String.rev at 1 3. simpl.
    rewrite !rev_app_append, IH. by rewrite JsFacts.append_assoc.
Qed.

Lemma rev_involutive (s : string) : String.rev (String.rev s) = s.
Proof.
  induction s as [|c s IH]; [done |].
  unfold String.rev at 2. simpl. rewrite rev_app_append, rev_append, IH. done.
Qed.

Lemma trim_start_not_white s : starts_white (trim_start s) = false.
Proof.
  induction s as [|c s IH]; simpl; [done |].
  destruct (is_white c) eqn:Hc; [done | simpl; done].
Qed.

Lemma trim_start_fixed s : starts_white s = false → trim_start s = s.
Proof. destruct s as [|c s]; simpl; [done |]. by intros ->. Qed.

Lemma trim_start_suffix s : ∃ w, s = w +:+ trim_start s.
Proof.
  induction s as [|c s [w IH]]; simpl; [by exists "" |].
  destruct (is_white c).
  - exists (String c w). rewrite JsFacts.append_cons. by f_equal.
  - by exists "".
Qed.

Lemma starts_white_append x y : x ≠ "" → starts_white (x +:+ y) = starts_white x.
Proof. by destruct x. Qed.

Lemma rev_nonempty s : s ≠ "" → String.rev s ≠ "".
Proof.
  destruct s as [|c s]; [done |]. intros _.
  unfold String.rev. simpl. rewrite rev_app_append. by destruct (String.rev s).
Qed.

Lemma trim_trimmed s :
  starts_white (trim s) = false ∧ ends_white (trim s) = false.
Proof.
  unfold trim, ends_white. split; [| by rewrite rev_involutive, trim_start_not_white].
  pose proof (trim_start_not_white s) as Hs.
  destruct (trim_start_suffix (String.rev (trim_start s))) as [w Hw].
  destruct (decide (trim_start (String.rev (trim_start s)) = "")) as [-> | Hne]; [done |].
  apply (f_equal String.rev) in Hw. rewrite rev_involutive, rev_append in Hw.
  rewrite Hw in Hs. by rewrite starts_white_append in Hs by (by apply rev_nonempty).
Qed.

Lemma trim_fixed s :
  starts_white s = false → ends_white s = false → trim s = s.
Proof.
  intros H1 H2. unfold trim. rewrite (trim_start_fixed s H1).
  rewrite (trim_start_fixed _ H2). apply rev_involutive.
Qed.

(** X20. The text a successful OpenAI call returns is trimmed: it is not
    empty, it neither begins nor ends with white space, and trimming it again
    changes nothing. *)
Theorem openai_text_is_trimmed (text : string) (targetLang : SupportedLanguage)
    (sourceLang : option SupportedLanguage) (w : World) (r : TranslationResult)
    (w' : World) :
  translateTextOpenAI text targetLang sourceLang w = (inr r, w') →
  translatedText r ≠ "" ∧
  starts_white (translatedText r) = false ∧
  ends_white (translatedText r) = false ∧
  trim (translatedText r) = translatedText r.
Proof.
  destruct (translateTextOpenAI_shape text targetLang sourceLang) as [req [-> _]].
  rewrite provider_call_run. cbv zeta.
  destruct (Js.truthy _); [| done].
  destruct (network w _ _) as [e | resp]; [done |].
  rewrite read_translation_cases.
  destruct (ok resp); [| done].
  destruct (json resp) as [e | e | | s]; try done.
  destruct (Js.truthy (trim s)) eqn:Ht; [| done].
  intros [= <- _]. simpl. apply JsFacts.truthy_true in Ht.
  destruct (trim_trimmed s) as [H1 H2].
  repeat split; try done. by apply trim_fixed.
Qed.

(** An answer with white space around it, as an instance. *)
Lemma openai_text_is_trimmed_witness :
  let r := {| translatedText := "hola"; sourceLanguage := None;
              targetLanguage := "es"; confidence := Some 0.95%Q |} in
  (translateTextOpenAI "hello" "es" None gemini_unavailable).1 = inr r ∧
  translatedText r ≠ "" ∧
  starts_white (translatedText r) = false ∧
  ends_white (translatedText r) = false ∧
  trim (translatedText r) = translatedText r.
Proof.
  split; [reflexivity |].
  exact (openai_text_is_trimmed "hello" "es" None gemini_unavailable
           {| translatedText := "hola"; sourceLanguage := None;
              targetLanguage := "es"; confidence := Some 0.95%Q |}
           (translateTextOpenAI "hello" "es" None gemini_unavailable).2
           eq_refl).
Defined.


(** *** What a translation does to the world *)

Lemma grows_by_refl n w : grows_by n w w.
Proof.
  repeat split. exists []. rewrite app_nil_r. split; [done | simpl; lia].
Qed.

Lemma grows_by_trans n m w1 w2 w3 :
  grows_by n w1 w2 → grows_by m w2 w3 → grows_by (n + m) w1 w3.
Proof.
  intros (Hc & Hr & Hn & x & Hx & Hlx) (Hc' & Hr' & Hn' & y & Hy & Hly).
  repeat split; try congruence.
  exists (x ++ y). rewrite Hy, Hx, app_assoc, length_app. split; [done | lia].
Qed.

Lemma grows_by_mono n m w w' : n ≤ m → grows_by n w w' → grows_by m w w'.
Proof.
  intros Hnm (Hc & Hr & Hn & x & Hx & Hlx). repeat split; try done.
  exists x. split; [done | lia].
Qed.

Lemma grows_by_request w req : grows_by 1 w (after_request w req).
Proof. repeat split. by exists [req]. Qed.

Lemma selected_grows mt text targetLang w :
  grows_by 1 w (selected mt text targetLang w).2.
Proof.
  destruct (selected_run mt text targetLang w) as (req & _ & ->).
  destruct (Js.truthy _); [| apply grows_by_refl].
  destruct (network w _ _) as [e | resp]; [apply grows_by_request |].
  destruct (read_translation _ _ resp w).1; apply grows_by_request.
Qed.

Lemma autoTranslate_grows text targetLang messageType w :
  grows_by (if is_casual (default casual messageType) then 1 else 2) w
    (autoTranslate text targetLang messageType w).2.
Proof.
  unfold autoTranslate, try_catch.
  pose proof (selected_grows (default casual messageType) text targetLang w) as H1.
  destruct (selected (default casual messageType) text targetLang w) as [[e | r] w1];
    simpl in *.
  - destruct (is_casual (default casual messageType)); simpl; [done |].
    pose proof (selected_grows casual text targetLang w1) as H2. simpl in H2.
    destruct (translateTextOpenAI text targetLang None w1) as [[e' | r] w2];
      simpl in *; apply (grows_by_trans 1 1 w w1 w2 H1 H2).
  - destruct (is_casual (default casual messageType)); [done |].
    apply (grows_by_mono 1 2); [lia | done].
Qed.

Lemma batch_loop_grows messages targetLang results w :
  grows_by (2 * length messages) w (batch_loop messages targetLang results w).2.
Proof.
  revert results w. induction messages as [|m ms IH]; intros results w; simpl.
  - apply grows_by_refl.
  - unfold mbind, M_bind, bind, try_catch.
    pose proof (autoTranslate_grows (text m) targetLang (type m) w) as H1.
    apply (grows_by_mono _ 2) in H1; [| by destruct (is_casual _); lia].
    destruct (autoTranslate (text m) targetLang (type m) w) as [[e | r] w1];
      simpl in *;
      match goal with
      | |- context [batch_loop ms targetLang ?acc w1] =>
          pose proof (IH acc w1) as H2;
          replace (S (length ms + S (length ms + 0))) with (2 + 2 * length ms) by lia;
          apply (grows_by_trans _ _ _ _ _ H1 H2)
      end.
Qed.

(** X21. Translating only ever adds to the request log: [autoTranslate]
    makes at most one request for class casual and at most two for the other
    classes, [batchTranslate] at most two per item, and neither changes the
    configuration or the network. *)
Theorem translation_request_bounds (messages : list BatchItem) (input : string)
    (targetLang : SupportedLanguage) (messageType : option MessageType) (w : World) :
  grows_by (if is_casual (default casual messageType) then 1 else 2) w
    (autoTranslate input targetLang messageType w).2 ∧
  grows_by (2 * length messages) w (batchTranslate messages targetLang w).2.
Proof. split; [apply autoTranslate_grows | apply batch_loop_grows]. Qed.

(** *** What a translation returns *)

Lemma selected_fields mt text targetLang w r w' :
  selected mt text targetLang w = (inr r, w') →
  targetLanguage r = targetLang ∧ sourceLanguage r = None ∧ translatedText r ≠ "" ∧
  confidence r = Some (provider_confidence mt).
Proof.
  destruct (selected_run mt text targetLang w) as (req & _ & ->).
  destruct (Js.truthy _); [| done].
  destruct (network w _ _) as [e | resp]; [done |].
  rewrite read_translation_cases.
  destruct (ok resp); [| done].
  destruct (json resp) as [e | e | | s]; try done.
  destruct (Js.truthy (provider_post mt s)) eqn:Ht; [| done].
  intros [= <- _]. simpl. by apply JsFacts.truthy_true in Ht.
Qed.

Lemma autoTranslate_fields text targetLang messageType w r w' :
  autoTranslate text targetLang messageType w = (inr r, w') →
  targetLanguage r = targetLang ∧ sourceLanguage r = None ∧ translatedText r ≠ "" ∧
  (confidence r = Some (provider_confidence (default casual messageType)) ∨
   confidence r = Some (provider_confidence casual)).
Proof.
  unfold autoTranslate.
  intros [H | (e & w1 & _ & H)]%try_catch_inr.
  - apply selected_fields in H as (? & ? & ? & ?). eauto.
  - destruct (negb (is_casual (default casual messageType))); [| done].
    apply try_catch_inr in H as [H | (e' & w2 & _ & [=])].
    apply (selected_fields casual) in H as (? & ? & ? & ?). eauto.
Qed.

(** X22. A translation [autoTranslate] returns always names the requested
    target language, never a source language, and has a text that is not
    empty; its confidence is the one of the provider selected or, after a
    fallback, the one of OpenAI. In the results of a batch every entry, the
    degraded ones included, names the requested target language and no source
    language. *)
Theorem result_fields (messages : list BatchItem) (input : string)
    (targetLang : SupportedLanguage) (messageType : option MessageType) (w : World) :
  (∀ r w', autoTranslate input targetLang messageType w = (inr r, w') →
     targetLanguage r = targetLang ∧ sourceLanguage r = None ∧
     translatedText r ≠ "" ∧
     (confidence r = Some (provider_confidence (default casual messageType)) ∨
      confidence r = Some 0.95%Q)) ∧
  (∀ results w', batchTranslate messages targetLang w = (inr results, w') →
     Forall (λ r, targetLanguage r = targetLang ∧ sourceLanguage r = None) results).
Proof.
  split; [intros r w'; apply autoTranslate_fields |].
  intros results w' Hrun.
  destruct (batchTranslate_spec messages targetLang w) as [w0 Hspec].
  rewrite Hspec in Hrun. injection Hrun as <- _.
  apply Forall_lookup. intros i r Hr.
  rewrite lookup_zip_with in Hr.
  destruct (messages !! i) as [m|] eqn:Hm; [| done]. simpl in Hr.
  destruct (item_outcomes messages targetLang w !! i) as [o|] eqn:Ho; [| done].
  simpl in Hr. injection Hr as <-.
  destruct o as [e | r]; [done |].
  destruct (item_outcomes_lookup _ _ _ _ _ Ho) as (m' & w1 & _ & Hauto).
  destruct (autoTranslate (text m') targetLang (type m') w1) as [o' w2] eqn:Hrun.
  simpl in Hauto. subst o'.
  by apply autoTranslate_fields in Hrun as (? & ? & _).
Qed.


(** *** Batches, piece by piece *)

Lemma batch_loop_accumulates messages targetLang results w :
  batch_loop messages targetLang results w =
    match batch_loop messages targetLang [] w with
    | (inr rs, w') => (inr (results ++ rs), w')
    | (inl e, w') => (inl e, w')
    end.
Proof.
  revert results w. induction messages as [|m ms IH]; intros results w; simpl.
  - unfold ret. by rewrite app_nil_r.
  - unfold mbind, M_bind, bind, try_catch.
    destruct (autoTranslate (text m) targetLang (type m) w) as [o w1].
    assert (Hstep : ∀ x, batch_loop ms targetLang (results ++ [x]) w1 =
              match batch_loop ms targetLang ([] ++ [x]) w1 with
              | (inr rs, w') => (inr (results ++ rs), w')
              | (inl e, w') => (inl e, w')
              end).
    { intros x. rewrite (IH (results ++ [x])), (IH ([] ++ [x])).
      destruct (batch_loop ms targetLang [] w1) as [[e | rs] w']; [done |].
      by rewrite <- app_assoc. }
    destruct o as [e | r]; simpl; apply Hstep.
Qed.

Lemma batch_loop_app l1 l2 targetLang results w :
  batch_loop (l1 ++ l2) targetLang results w =
    match batch_loop l1 targetLang results w with
    | (inr rs, w1) => batch_loop l2 targetLang rs w1
    | (inl e, w1) => (inl e, w1)
    end.
Proof.
  revert results w. induction l1 as [|m ms IH]; intros results w; simpl; [done |].
  unfold mbind, M_bind, bind, try_catch.
  destruct (autoTranslate (text m) targetLang (type m) w) as [[e | r] w1]; simpl;
    apply IH.
Qed.

(** X23. A batch can be translated in pieces: translating [l1 ++ l2] gives
    the results of [l1] followed by the results of [l2] translated in the
    world [l1] left behind. *)
Theorem batch_in_pieces (l1 l2 : list BatchItem) (targetLang : SupportedLanguage)
    (w : World) :
  ∃ r1 w1 r2 w2,
    batchTranslate l1 targetLang w = (inr r1, w1) ∧
    batchTranslate l2 targetLang w1 = (inr r2, w2) ∧
    batchTranslate (l1 ++ l2) targetLang w = (inr (r1 ++ r2), w2).
Proof.
  destruct (batchTranslate_spec l1 targetLang w) as [w1 H1].
  destruct (batchTranslate_spec l2 targetLang w1) as [w2 H2].
  eexists _, w1, _, w2. split; [exact H1 |]. split; [exact H2 |].
  unfold batchTranslate in *. rewrite batch_loop_app, H1.
  by rewrite batch_loop_accumulates, H2.
Qed.

(** *** The two requests of a fallback *)

(** X24. With the key of the selected provider and the OpenAI key both
    configured, a document or formal translation whose provider call fails
    makes exactly two requests: the first to the selected provider, the second
    to OpenAI. *)
Theorem fallback_makes_two_requests (mt : MessageType) (text : string)
    (targetLang : SupportedLanguage) (w : World) (e : TranslationError) (w1 : World) :
  let c := spread (config w) (runtimeConfig w) in
  mt ≠ casual →
  provider_key mt c ≠ "" → openaiApiKey c ≠ "" →
  selected mt text targetLang w = (inl e, w1) →
  url <$> sent (autoTranslate text targetLang (Some mt) w).2 =
    (url <$> sent w) ++ [provider_url mt c; provider_url casual c].
Proof.
  intros c Hmt Hk Ho Hsel. subst c.
  pose proof (selected_grows mt text targetLang w) as (Hc & Hr & _ & _).
  rewrite Hsel in Hc, Hr. simpl in Hc, Hr.
  assert (Hsent : url <$> sent w1 =
            (url <$> sent w) ++ [provider_url mt (spread (config w) (runtimeConfig w))]).
  { destruct (selected_run mt text targetLang w) as (req & Hurl & Hrun).
    rewrite Hsel in Hrun. apply JsFacts.truthy_true in Hk. rewrite Hk in Hrun.
    destruct (network w _ _) as [x | resp];
      [| destruct (read_translation _ _ resp w).1];
      injection Hrun as _ ->; simpl; by rewrite fmap_app, <- Hurl. }
  assert (Hauto : (autoTranslate text targetLang (Some mt) w).2 =
            (selected casual text targetLang w1).2).
  { unfold autoTranslate, try_catch. simpl. rewrite Hsel.
    destruct mt; [done | |]; simpl;
      by destruct (translateTextOpenAI text targetLang None w1) as [[? | ?] ?]. }
  rewrite Hauto.
  destruct (selected_run casual text targetLang w1) as (req & Hurl & ->).
  simpl in Hurl. cbv zeta. unfold provider_key. rewrite Hc, Hr.
  apply JsFacts.truthy_true in Ho. rewrite Ho.
  destruct (network w1 _ _) as [x | resp];
    [| destruct (read_translation _ _ resp w1).1];
    simpl; rewrite fmap_app, Hsent, <- app_assoc; simpl; by rewrite Hurl.
Qed.

(** A formal translation while the network is down, as an instance. *)
Lemma fallback_makes_two_requests_witness :
  url <$> sent (autoTranslate "dear sir" "es" (Some formal) network_down).2 =
    [ "https://api.anthropic.com/v1/messages";
      "https://api.openai.com/v1/chat/completions" ].
Proof.
  exact (fallback_makes_two_requests formal "dear sir" "es" network_down
           {| error := "Formal translation failed"; code := "CLAUDE_ERROR";
              details := Some "fetch failed" |}
           (selected formal "dear sir" "es" network_down).2
           ltac:(discriminate) ltac:(discriminate) ltac:(discriminate) eq_refl).
Defined.


End TranslationLaws.

(** ** The client hook: proofs *)

Module ClientProofs.

Import Relay Client.

Lemma elem_of_set_add x y s : y ∈ set_add x s ↔ y = x ∨ y ∈ s.
Proof.
  unfold set_add. case_bool_decide as Hx.
  - split; [by right | intros [-> | H]; done].
  - rewrite elem_of_app, list_elem_of_singleton. tauto.
Qed.

Lemma elem_of_set_delete x y s : y ∈ set_delete x s ↔ y ≠ x ∧ y ∈ s.
Proof. unfold set_delete. by rewrite list_elem_of_filter. Qed.

Lemma set_add_NoDup x s : NoDup s → NoDup (set_add x s).
Proof.
  intros Hs. unfold set_add. case_bool_decide as Hx; [done |].
  apply NoDup_app. split; [done |]. split; [| apply NoDup_singleton].
  intros y Hy ->%list_elem_of_singleton. done.
Qed.

Lemma set_delete_NoDup x s : NoDup s → NoDup (set_delete x s).
Proof. apply NoDup_filter. Qed.

Lemma receive_NoDup userId c ev :
  NoDup (onlineUsers c) ∧ NoDup (typingUsers c) →
  NoDup (onlineUsers (receive userId c ev)) ∧ NoDup (typingUsers (receive userId c ev)).
Proof.
  intros [Ho Ht]. destruct ev; simpl; try done.
  - split; [done |]. destruct isTyping; [by apply set_add_NoDup | by apply set_delete_NoDup].
  - split; [by apply set_add_NoDup | done].
  - split; [by apply set_delete_NoDup | done].
Qed.

Lemma receive_all_NoDup userId c evs :
  NoDup (onlineUsers c) ∧ NoDup (typingUsers c) →
  NoDup (onlineUsers (receive_all userId c evs)) ∧
  NoDup (typingUsers (receive_all userId c evs)).
Proof.
  revert c. induction evs as [|ev evs IH]; intros c H; [done |].
  simpl. by apply IH, receive_NoDup.
Qed.

Lemma online_after userId c evs u :
  u ∈ onlineUsers (receive_all userId c evs) ↔
    match last_presence u evs with
    | Some b => b = true
    | None => u ∈ onlineUsers c
    end.
Proof.
  revert c. induction evs as [|ev evs IH]; intros c; [done |].
  simpl. rewrite IH. destruct (last_presence u evs) as [b|]; [done |].
  destruct ev; simpl; try done.
  - rewrite elem_of_set_add. case_bool_decide; naive_solver.
  - rewrite elem_of_set_delete. case_bool_decide; naive_solver.
Qed.

Lemma typing_after userId c evs u :
  u ∈ typingUsers (receive_all userId c evs) ↔
    match last_typing u evs with
    | Some b => b = true
    | None => u ∈ typingUsers c
    end.
Proof.
  revert c. induction evs as [|ev evs IH]; intros c; [done |].
  simpl. rewrite IH. destruct (last_typing u evs) as [b|]; [done |].
  destruct ev; simpl; try done.
  destruct isTyping.
  - rewrite elem_of_set_add. case_bool_decide; naive_solver.
  - rewrite elem_of_set_delete. case_bool_decide; naive_solver.
Qed.

(** X25. The two sets of the hook follow the last word heard about each
    user: after any events, a user is among the online users exactly when the
    last presence event about that user was [user:online], and among the typing
    users exactly when the last typing event of that user had the flag set;
    neither list ever holds a user twice. *)
Theorem hook_sets_follow_last_event (userId : string) (evs : list Incoming) (u : string) :
  let c := receive_all userId initial evs in
  (u ∈ onlineUsers c ↔ last_presence u evs = Some true) ∧
  (u ∈ typingUsers c ↔ last_typing u evs = Some true) ∧
  NoDup (onlineUsers c) ∧ NoDup (typingUsers c).
Proof.
  intros c. subst c. rewrite online_after, typing_after.
  split; [| split].
  - destruct (last_presence u evs) as [b|]; simpl; [naive_solver |].
    split; [by intros ?%not_elem_of_nil | done].
  - destruct (last_typing u evs) as [b|]; simpl; [naive_solver |].
    split; [by intros ?%not_elem_of_nil | done].
  - apply receive_all_NoDup. split; apply NoDup_nil_2.
Qed.

Lemma messages_without_history userId c evs :
  forallb (λ ev, negb (is_history ev)) evs = true →
  messages (receive_all userId c evs) = messages c ++ received evs.
Proof.
  revert c. induction evs as [|ev evs IH]; intros c; simpl.
  - by rewrite app_nil_r.
  - intros [Hev Hevs]%andb_true_iff. rewrite (IH _ Hevs).
    destruct ev; simpl in *; try done. by rewrite <- app_assoc.
Qed.

Lemma receive_all_app userId c evs1 evs2 :
  receive_all userId c (evs1 ++ evs2) =
    receive_all userId (receive_all userId c evs1) evs2.
Proof. apply foldl_app. Qed.

(** X26. The message list of the hook is the last history received followed
    by the messages received since, whatever chat they belong to; before any
    history it is the messages received so far. *)
Theorem hook_messages (userId : string) (c : HookState) (before : list Incoming)
    (chatMessages : list Message) (since : list Incoming) :
  forallb (λ ev, negb (is_history ev)) since = true →
  messages (receive_all userId c (before ++ InChatHistory chatMessages :: since)) =
    chatMessages ++ received since ∧
  messages (receive_all userId c since) = messages c ++ received since.
Proof.
  intros Hs. split; [| by apply messages_without_history].
  rewrite receive_all_app. simpl. by rewrite messages_without_history.
Qed.

(** A history of one message, then a message of another chat, as an
    instance. *)
Lemma hook_messages_witness :
  messages
    (receive_all "u1" initial
       ([InMessageReceive (stamp (plain "u9" "u1" "old") 1 "r" 1)]
          ++ InChatHistory [stamp (plain "u1" "u2" "hello") 1000 "k3j9x0q1z" 1000]
          :: [InUserOnline "u2";
              InMessageReceive (stamp (plain "u3" "u1" "psst") 1001 "p0o9i8u7y" 1001)])) =
    [ stamp (plain "u1" "u2" "hello") 1000 "k3j9x0q1z" 1000;
      stamp (plain "u3" "u1" "psst") 1001 "p0o9i8u7y" 1001 ].
Proof.
  exact (proj1 (hook_messages "u1" initial
                  [InMessageReceive (stamp (plain "u9" "u1" "old") 1 "r" 1)]
                  [stamp (plain "u1" "u2" "hello") 1000 "k3j9x0q1z" 1000]
                  [InUserOnline "u2";
                   InMessageReceive (stamp (plain "u3" "u1" "psst") 1001 "p0o9i8u7y" 1001)]
                  eq_refl)).
Defined.

End ClientProofs.

(** ** Server and clients together: proofs *)

Module SystemProofs.

Import Relay Client System RelayProofs ClientProofs.

Lemma deliver_one_lookup st ps e t :
  deliver_one st ps e !! t =
    (λ p, if bool_decide (t ∈ recipients st (target e)) then hear e p else p)
      <$> ps !! t.
Proof.
  unfold deliver_one. rewrite map_lookup_imap. by destruct (ps !! t).
Qed.

Lemma hear_message e m p :
  ename e = "message:receive" → payload e = PMessage m →
  hookUser (hear e p) = hookUser p ∧
  Client.messages (hook (hear e p)) = Client.messages (hook p) ++ [m].
Proof. intros Hn Hp. unfold hear, to_incoming. by rewrite Hp, Hn. Qed.

(** X27. A message sent by a connected client, end to end: the server
    stores the stamped message in the room of the payload's sender and
    recipient. The message is added to the message list of every client
    whose socket is in the recipient's personal room and not in the room
    named by the sender's socket id, and then to the list of the sending
    client; the list of every other client stays as it was. A sender that is
    in the room of its own socket id, as it is from its connection on, gets
    the message once. *)
Theorem send_end_to_end (sys : Sys) (sid : string) (p : Peer) (md : MessageData)
    (now : N) (rnd : string) (date : N) :
  peers sys !! sid = Some p → isConnected (hook p) = true →
  is_Some (sockets (server sys) !! sid) →
  let sys' := sys_step sys (Do sid (sendMessage md) now rnd date) in
  let m := stamp md now rnd date in
  let chat := chatId (senderId md) (recipientId md) in
  history chat (server sys') = history chat (server sys) ++ [m] ∧
  ∀ t q, peers sys !! t = Some q →
    ∃ q', peers sys' !! t = Some q' ∧ hookUser q' = hookUser q ∧
      Client.messages (hook q') =
        Client.messages (hook q)
          ++ (if bool_decide (t ∈ members (user_room (recipientId md)) (server sys) ∧
                              t ∉ members sid (server sys))
              then [m] else [])
          ++ (if bool_decide (t = sid) then [m] else []).
Proof.
  intros Hp Hc [s Hs] sys' m chat. subst sys'.
  unfold sys_step. rewrite Hp. unfold act. rewrite Hc. simpl.
  unfold serve, handle. simpl. rewrite Hs. simpl. split.
  - unfold history at 1. simpl. by rewrite lookup_insert_eq.
  - intros t q Hq. unfold deliver. simpl.
    rewrite !deliver_one_lookup, Hq. simpl. eexists. split; [reflexivity |].
    unfold members. simpl.
    fold (members (user_room (recipientId md)) (server sys)).
    fold (members sid (server sys)).
    set (e1 := {| target := ToRoom sid (user_room (recipientId md));
                  ename := "message:receive"; payload := PMessage m |}).
    set (e2 := {| target := ToSocket sid;
                  ename := "message:receive"; payload := PMessage m |}).
    assert (H1 : ∀ x, hookUser (hear e1 x) = hookUser x ∧
                      Client.messages (hook (hear e1 x)) = Client.messages (hook x) ++ [m])
      by (intros x; by apply hear_message).
    assert (H2 : ∀ x, hookUser (hear e2 x) = hookUser x ∧
                      Client.messages (hook (hear e2 x)) = Client.messages (hook x) ++ [m])
      by (intros x; by apply hear_message).
    rewrite (bool_decide_ext (t ∈ {[sid]}) (t = sid)) by set_solver.
    rewrite (bool_decide_ext (t ∈ _ ∖ _)
               (t ∈ members (user_room (recipientId md)) (server sys) ∧
                t ∉ members sid (server sys))) by set_solver.
    destruct (bool_decide (t = sid)), (bool_decide (_ ∧ _));
      rewrite ?(proj1 (H2 _)), ?(proj2 (H2 _)), ?(proj1 (H1 _)), ?(proj2 (H1 _)),
        ?app_nil_r; by rewrite <- ?app_assoc.
Qed.

(** The first user greets the second, as an instance. *)
Lemma send_end_to_end_witness :
  let sys := sys_run boot two_users in
  let sys' := sys_step sys (Do "a" (sendMessage (plain "u1" "u2" "hello")) 1000 "k3j9x0q1z" 1000) in
  history "chat_u1_u2" (server sys') = [stamp (plain "u1" "u2" "hello") 1000 "k3j9x0q1z" 1000] ∧
  (Client.messages ∘ hook) <$> peers sys' !! "a" =
    Some [stamp (plain "u1" "u2" "hello") 1000 "k3j9x0q1z" 1000] ∧
  (Client.messages ∘ hook) <$> peers sys' !! "b" =
    Some [stamp (plain "u1" "u2" "hello") 1000 "k3j9x0q1z" 1000].
Proof.
  assert (Hp : peers (sys_run boot two_users) !! "a" =
                 Some {| hookUser := "u1";
                         hook := {| isConnected := true; onlineUsers := ["u2"];
                                    Client.messages := []; typingUsers := [] |} |})
    by (by vm_compute).
  destruct (send_end_to_end (sys_run boot two_users) "a" _
              (plain "u1" "u2" "hello") 1000 "k3j9x0q1z" 1000 Hp eq_refl
              ltac:(vm_compute; eauto)) as [Hh _].
  split; [exact Hh | split; by vm_compute].
Defined.

(** A client that joined the room named by the sender's socket id is in
    the recipient's personal room and is not given the message. *)
Example guest_of_sender_gets_nothing :
  let sys := sys_run boot (two_users ++ [Do "b" (joinChat "a") 0 "" 0]) in
  let sys' := sys_step sys (Do "a" (sendMessage (plain "u1" "u2" "hello")) 1000 "k3j9x0q1z" 1000) in
  registered (server sys) "b" "u2" ∧
  "b" ∈ members (user_room "u2") (server sys) ∧
  (Client.messages ∘ hook) <$> peers sys' !! "b" = Some [].
Proof.
  split; [eexists; split; by vm_compute |].
  split; [apply (bool_decide_unpack _) |]; by vm_compute.
Qed.

(** X28. A client that opens the application is told nothing it keeps about
    who is already online: the server answers [user:join] with the list of
    online users under the name [users:online], for which the hook has no
    listener, so the new client's own list of online users is empty whatever
    the server holds. Every other live client adds the new user to its list,
    unless it is in a room named by the id the new socket was given: such a
    client is left out of the broadcast and keeps its state. *)
Theorem late_joiner_sees_nobody (sys : Sys) (sid uid : string) :
  uid ≠ "" → sockets (server sys) !! sid = None →
  let sys' := sys_step sys (Open sid uid) in
  registered (server sys') sid uid ∧
  peers sys' !! sid =
    Some {| hookUser := uid;
            hook := {| isConnected := true; onlineUsers := [];
                       Client.messages := []; typingUsers := [] |} |} ∧
  ∀ t q, t ≠ sid → is_Some (sockets (server sys) !! t) → peers sys !! t = Some q →
    ∃ q', peers sys' !! t = Some q' ∧
      (t ∉ members sid (server sys) → uid ∈ Client.onlineUsers (hook q')) ∧
      (t ∈ members sid (server sys) → q' = q).
Proof.
  intros Hu Hs sys'. subst sys'. unfold sys_step.
  apply JsFacts.truthy_true in Hu. rewrite Hu, bool_decide_eq_true_2 by done.
  simpl. unfold serve. simpl. rewrite !Hs. simpl.
  rewrite !lookup_insert_eq. simpl.
  set (st' := {| sockets := _; connectedUsers := _; userRooms := _; Relay.messages := _ |}).
  assert (Hself : sid ∈ members sid st').
  { apply elem_of_members. eexists. split; [apply lookup_insert_eq |]. set_solver. }
  assert (Hother : ∀ t, t ≠ sid → t ∈ members sid st' ↔ t ∈ members sid (server sys)).
  { intros t Hne. rewrite !elem_of_members. subst st'. simpl.
    by rewrite !lookup_insert_ne by done. }
  split; [| split].
  - unfold registered. simpl. rewrite lookup_insert_eq. eauto.
  - rewrite !deliver_one_lookup, lookup_insert_eq. simpl.
    rewrite (bool_decide_eq_false_2 (sid ∈ _ ∖ _)) by set_solver.
    by rewrite (bool_decide_eq_true_2 (sid ∈ {[sid]})) by set_solver.
  - intros t q Hne [s Ht] Hq.
    rewrite !deliver_one_lookup, lookup_insert_ne, Hq by done. simpl.
    eexists. split; [reflexivity |].
    rewrite (bool_decide_eq_false_2 (t ∈ {[sid]})) by set_solver.
    assert (Hlive : t ∈ dom (sockets st')).
    { subst st'. simpl. rewrite !dom_insert_L.
      apply (elem_of_dom_2 (sockets (server sys))) in Ht. set_solver. }
    split.
    + intros Hout. rewrite bool_decide_eq_true_2.
      * simpl. apply elem_of_set_add. by left.
      * apply elem_of_difference. split; [done |]. by rewrite Hother.
    + intros Hin. rewrite bool_decide_eq_false_2; [done |].
      rewrite elem_of_difference, Hother by done. tauto.
Qed.

(** The second of two users, as an instance: the first is registered and
    the second does not list it. *)
Lemma late_joiner_sees_nobody_witness :
  let sys := sys_step boot (Open "a" "u1") in
  let sys' := sys_step sys (Open "b" "u2") in
  registered (server sys') "a" "u1" ∧
  peers sys' !! "b" =
    Some {| hookUser := "u2";
            hook := {| isConnected := true; onlineUsers := [];
                       Client.messages := []; typingUsers := [] |} |}.
Proof.
  split; [eexists; split; by vm_compute |].
  exact (proj1 (proj2 (late_joiner_sees_nobody (sys_step boot (Open "a" "u1")) "b" "u2"
                         ltac:(discriminate) ltac:(by vm_compute)))).
Defined.

(** A client that had joined a room of the name the new socket is given
    is not told of the new user. *)
Example guest_of_new_socket_is_not_told :
  let sys := sys_run boot [Open "a" "u1"; Do "a" (joinChat "b") 0 "" 0] in
  let sys' := sys_step sys (Open "b" "u2") in
  registered (server sys') "b" "u2" ∧
  (Client.onlineUsers ∘ hook) <$> peers sys' !! "a" = Some [].
Proof. split; [eexists; split |]; by vm_compute. Qed.

(** X29. When a connection is closed whose entry in [connectedUsers] names
    a user with a non-empty id, every other live client drops that user from
    its list of online users, unless it is in the room named by the closed
    socket's id: such a client is left out of the broadcast and keeps its
    state, the user included. If another connection still has an entry for
    the same user, the server goes on listing the user online, so the clients
    that were told and the server disagree. *)
Theorem close_drops_user_everywhere (sys : Sys) (sid u reason : string) :
  is_Some (sockets (server sys) !! sid) →
  omap_get sid (connectedUsers (server sys)) = Some u → u ≠ "" →
  let sys' := sys_step sys (Close sid reason) in
  (∀ t q, t ≠ sid → is_Some (sockets (server sys) !! t) → peers sys !! t = Some q →
     ∃ q', peers sys' !! t = Some q' ∧
       (t ∉ members sid (server sys) → u ∉ Client.onlineUsers (hook q')) ∧
       (t ∈ members sid (server sys) → q' = q)) ∧
  (∀ t, t ≠ sid → omap_get t (connectedUsers (server sys)) = Some u →
     u ∈ Relay.onlineUsers (server sys')).
Proof.
  intros [s Hs] Hget Hu sys'. subst sys'. unfold sys_step, serve, handle. simpl.
  rewrite Hs. unfold on_disconnect. rewrite Hget.
  apply JsFacts.truthy_true in Hu. rewrite Hu. simpl. split.
  - intros t q Hne [x Ht] Hq. unfold deliver. simpl.
    rewrite lookup_alter_ne by done. rewrite deliver_one_lookup, Hq. simpl.
    eexists. split; [reflexivity |].
    set (st' := {| sockets := _; connectedUsers := _; userRooms := _; Relay.messages := _ |}).
    assert (Hother : t ∈ members sid st' ↔ t ∈ members sid (server sys)).
    { rewrite !elem_of_members. subst st'. simpl. by rewrite lookup_delete_ne. }
    assert (Hlive : t ∈ dom (sockets st')).
    { subst st'. simpl. rewrite dom_delete_L.
      apply (elem_of_dom_2 (sockets (server sys))) in Ht. set_solver. }
    split.
    + intros Hout. rewrite bool_decide_eq_true_2.
      * simpl. rewrite elem_of_set_delete. tauto.
      * apply elem_of_difference. split; [done |]. by rewrite Hother.
    + intros Hin. rewrite bool_decide_eq_false_2; [done |].
      rewrite elem_of_difference, Hother. tauto.
  - intros t Hne Ht. unfold Relay.onlineUsers, omap_values. simpl.
    apply list_elem_of_fmap. exists (t, u). split; [done |].
    apply omap_get_elem. by rewrite omap_get_delete_ne.
Qed.

(** User [u2] is there when [u1] opens two sessions; the first session of
    [u1] closes, as an instance. *)
Lemma close_drops_user_everywhere_witness :
  let sys := sys_run boot [Open "b" "u2"; Open "a1" "u1"; Open "a2" "u1"] in
  let sys' := sys_step sys (Close "a1" "transport close") in
  registered (server sys') "a2" "u1" ∧
  "u1" ∈ Relay.onlineUsers (server sys') ∧
  (Client.onlineUsers ∘ hook) <$> peers sys !! "b" = Some ["u1"] ∧
  (Client.onlineUsers ∘ hook) <$> peers sys' !! "b" = Some [].
Proof.
  split; [eexists; split; by vm_compute |].
  split; [| split; by vm_compute].
  exact (proj2 (close_drops_user_everywhere
                  (sys_run boot [Open "b" "u2"; Open "a1" "u1"; Open "a2" "u1"])
                  "a1" "u1" "transport close"
                  ltac:(vm_compute; eauto) ltac:(by vm_compute) ltac:(discriminate))
           "a2" ltac:(discriminate) ltac:(by vm_compute)).
Defined.

(** A client that joined the room named by the closing socket's id goes on
    listing the user after the close. *)
Example guest_of_closed_socket_keeps_the_user :
  let sys := sys_run boot [Open "b" "u2"; Open "a" "u1"; Do "b" (joinChat "a") 0 "" 0] in
  let sys' := sys_step sys (Close "a" "transport close") in
  Relay.onlineUsers (server sys') = ["u2"] ∧
  (Client.onlineUsers ∘ hook) <$> peers sys' !! "b" = Some ["u1"].
Proof. by vm_compute. Qed.

Lemma deliver_keeps_peers st ems ps t p :
  ps !! t = Some p → ∃ p', deliver st ems ps !! t = Some p'.
Proof.
  revert ps p. induction ems as [|e ems IH]; intros ps p Hp; [by eauto |].
  unfold deliver. simpl. fold (deliver st ems (deliver_one st ps e)).
  eapply IH. rewrite deliver_one_lookup, Hp. reflexivity.
Qed.

(** X30. What a client does while it is not connected is dropped, not kept
    for later: once its connection has closed the hook is not connected, and
    no action of the hook reaches the server or any client. *)
Theorem actions_after_close_are_dropped (sys : Sys) (sid reason : string) (p : Peer)
    (a : Action) (now : N) (rnd : string) (date : N) :
  peers sys !! sid = Some p →
  let closed := sys_step sys (Close sid reason) in
  (∃ p', peers closed !! sid = Some p' ∧ isConnected (hook p') = false) ∧
  sys_step closed (Do sid a now rnd date) = closed.
Proof.
  intros Hp closed.
  assert (Hclosed : ∃ p', peers closed !! sid = Some p' ∧ isConnected (hook p') = false).
  { subst closed. unfold sys_step, serve. cbn [peers server]. rewrite lookup_alter_eq.
    destruct (deliver_keeps_peers (handle (server sys) (Disconnect sid)).1
                (handle (server sys) (Disconnect sid)).2 (peers sys) sid p Hp)
      as [p' ->].
    simpl. eauto. }
  split; [exact Hclosed |].
  destruct Hclosed as (p' & Hp' & Hc). unfold sys_step at 1. rewrite Hp'.
  unfold act. by rewrite Hc.
Qed.

(** The first of two users sends after its connection closed, as an
    instance. *)
Lemma actions_after_close_are_dropped_witness :
  let closed := sys_step (sys_run boot two_users) (Close "a" "transport close") in
  sys_step closed (Do "a" (sendMessage (plain "u1" "u2" "hello")) 1000 "k3j9x0q1z" 1000)
    = closed.
Proof.
  exact (proj2 (actions_after_close_are_dropped (sys_run boot two_users) "a"
                  "transport close"
                  {| hookUser := "u1";
                     hook := {| isConnected := true; onlineUsers := ["u2"];
                                Client.messages := []; typingUsers := [] |} |}
                  (sendMessage (plain "u1" "u2" "hello")) 1000 "k3j9x0q1z" 1000
                  ltac:(by vm_compute))).
Defined.


End SystemProofs.
